(** * GrafoDeAtaque: the attack graph and its breadth-first search

    A shallow embedding of [src/grafo_ataque.py]: the class [AttackGraph]
    with its adjacency dictionary, [add_attack_step] and
    [find_shortest_attack_path_bfs], followed by the properties of the
    search. *)

From stdpp Require Import base option list strings gmap sets.

(** ** Python containers *)

(** A Python [dict] with string keys: insertion-ordered, one entry per key. *)
Module PyDict.

Definition t (V : Type) : Type := list (string * V).

Definition empty {V} : t V := [].

(** [d.get(k)] *)
Fixpoint get {V} (d : t V) (k : string) : option V :=
  match d with
  | [] => None
  | (k', v) :: d' => if decide (k' = k) then Some v else get d' k
  end.

(** [k in d] *)
Definition contains {V} (d : t V) (k : string) : bool :=
  bool_decide (is_Some (get d k)).

(** [d[k] = v]: an existing key keeps its position, a new key goes last. *)
Fixpoint set {V} (d : t V) (k : string) (v : V) : t V :=
  match d with
  | [] => [(k, v)]
  | (k', v') :: d' =>
      if decide (k' = k) then (k', v) :: d' else (k', v') :: set d' k v
  end.

Definition keys {V} (d : t V) : list string := d.*1.

End PyDict.

(** [collections.defaultdict(list)]: reading a missing key stores an empty
    list under it and returns that list. *)
Module DefaultDict.

Definition getitem {A} (d : PyDict.t (list A)) (k : string)
  : list A * PyDict.t (list A) :=
  match PyDict.get d k with
  | Some v => (v, d)
  | None => ([], PyDict.set d k [])
  end.

End DefaultDict.

(** The part of [networkx.DiGraph] the class uses: the successor
    dictionary of dictionaries, [add_edge] with one attribute, and the
    [edges] view. *)
Module nx.

Definition DiGraph : Type := PyDict.t (PyDict.t string).

Definition empty : DiGraph := PyDict.empty.

Definition add_node (G : DiGraph) (n : string) : DiGraph :=
  if PyDict.contains G n then G else PyDict.set G n PyDict.empty.

Definition add_edge (G : DiGraph) (u v label : string) : DiGraph :=
  let G1 := add_node G u in
  let G2 := add_node G1 v in
  PyDict.set G2 u (PyDict.set (default PyDict.empty (PyDict.get G2 u)) v label).

Definition edges (G : DiGraph) : list (string * string) :=
  flat_map (fun '(n, nbrs) => map (fun nbr => (n, nbr)) (PyDict.keys nbrs)) G.

End nx.

(** ** The class AttackGraph *)

(** An attack step stored under its source: (target, exploit name). *)
Definition step : Type := string * string.

Record AttackGraph := {
  graph : PyDict.t (list step);
  visual_graph : nx.DiGraph
}.

(** What the methods print. *)
Inductive message :=
| StepAdded (source exploit_name target : string)
| StartNodeMissing (start_node : string)
| SearchStarted (start_node target_node : string)
| PathFound (steps : nat)
| NoPathFound.

(** [AttackGraph()] *)
Definition init : AttackGraph :=
  {| graph := PyDict.empty; visual_graph := nx.empty |}.

(** [self.graph[source].append((target, exploit_name))] and the two lines
    after it. *)
Definition add_attack_step (self : AttackGraph) (source target exploit_name : string)
  : AttackGraph * list message :=
  let '(steps, g) := DefaultDict.getitem (graph self) source in
  ({| graph := PyDict.set g source (steps ++ [(target, exploit_name)]);
      visual_graph := nx.add_edge (visual_graph self) source target exploit_name |},
   [StepAdded source exploit_name target]).

(** How a call ends: with a returned value ([None] or a path), or with the
    [IndexError] of [path[-1]] on an empty list. *)
Inductive outcome :=
| Returned (path : option (list string))
| IndexError.

(** The body of [for neighbor, exploit in self.graph[current_node]]. *)
Definition visit (path : list string)
    (st : gset string * list (list string)) (e : step)
  : gset string * list (list string) :=
  let '(visited, queue) := st in
  let '(neighbor, exploit) := e in
  if decide (neighbor ∈ visited) then (visited, queue)
  else ({[neighbor]} ∪ visited, queue ++ [path ++ [neighbor]]).

Definition for_neighbors (path : list string) (steps : list step)
    (visited : gset string) (queue : list (list string))
  : gset string * list (list string) :=
  fold_left (visit path) steps (visited, queue).

(** One turn of [while queue: ...]: either the method is left (the queue
    is empty, the popped path ends at the target, or [path[-1]] raises), or
    the popped path has been expanded and the loop goes on. *)
Definition iteration (target_node : string)
    (g : PyDict.t (list step)) (queue : list (list string)) (visited : gset string)
  : (outcome * PyDict.t (list step) * list message)
    + (PyDict.t (list step) * list (list string) * gset string) :=
  match queue with
  | [] => inl (Returned None, g, [NoPathFound])
  | path :: queue' =>
      match last path with
      | None => inl (IndexError, g, [])
      | Some current_node =>
          if decide (current_node = target_node)
          then inl (Returned (Some path), g, [PathFound (length path - 1)])
          else
            let '(steps, g') := DefaultDict.getitem g current_node in
            let '(visited', queue'') := for_neighbors path steps visited queue' in
            inr (g', queue'', visited')
      end
  end.

(** The loop with an iteration budget; [None] when the budget is used up
    before the method is left. *)
Fixpoint while_queue (budget : nat) (target_node : string)
    (g : PyDict.t (list step)) (queue : list (list string)) (visited : gset string)
  : option (outcome * PyDict.t (list step) * list message) :=
  match budget with
  | O => None
  | S budget' =>
      match iteration target_node g queue visited with
      | inl r => Some r
      | inr (g', queue', visited') => while_queue budget' target_node g' queue' visited'
      end
  end.

(** The first test of the method: the start node is neither a key of
    [self.graph] nor the first component of an edge of [self.visual_graph]. *)
Definition start_missing (self : AttackGraph) (start_node : string) : bool :=
  negb (PyDict.contains (graph self) start_node)
  && negb (bool_decide (start_node ∈ (nx.edges (visual_graph self)).*1)).

(** An iteration budget that the loop never uses up (see
    [while_queue_budget]): one iteration for the start node and one for
    every stored step. *)
Definition budget_for (g : PyDict.t (list step)) : nat :=
  2 + length (concat g.*2).

Definition find_shortest_attack_path_bfs
    (self : AttackGraph) (start_node target_node : string)
  : option (outcome * AttackGraph * list message) :=
  if start_missing self start_node
  then Some (Returned None, self, [StartNodeMissing start_node])
  else
    '(r, g, out) ← while_queue (budget_for (graph self)) target_node
                     (graph self) [[start_node]] {[start_node]};
    Some (r, {| graph := g; visual_graph := visual_graph self |},
          SearchStarted start_node target_node :: out).

(** Runs a list of [add_attack_step] calls. *)
Definition build (steps : list (string * string * string)) (self : AttackGraph)
  : AttackGraph :=
  fold_left (fun s '(source, target, exploit_name) =>
               (add_attack_step s source target exploit_name).1) steps self.

Local Open Scope string_scope.

(** The topology of the main block. *)
Definition attack_net : AttackGraph :=
  build [("Internet", "WebServer", "CVE-2023-XYZ (RCE)");
         ("Internet", "VPN_Gateway", "Weak_Credentials");
         ("WebServer", "AppServer", "Config_Error");
         ("WebServer", "FileServer", "SMB_Exploit");
         ("VPN_Gateway", "Internal_PC", "Phishing_Link");
         ("AppServer", "Database_SQL", "SQL_Injection");
         ("FileServer", "Database_SQL", "Stored_Creds");
         ("Internal_PC", "Database_SQL", "Admin_Access");
         ("Internal_PC", "Printer", "Default_Password");
         ("Printer", "Database_SQL", "Legacy_Connect")] init.

Local Close Scope string_scope.

(** The value a call returns, and what it prints. *)
Definition returned (res : option (outcome * AttackGraph * list message))
  : option outcome := res ≫= fun x => Some x.1.1.

Definition printed (res : option (outcome * AttackGraph * list message))
  : option (list message) := res ≫= fun x => Some x.2.

(** The nodes whose paths the iterations append to the queue: after an
    iteration the queue is the rest of the old one followed by the new
    paths. *)
Fixpoint enqueued (budget : nat) (target_node : string)
    (g : PyDict.t (list step)) (queue : list (list string)) (visited : gset string)
  : list string :=
  match budget with
  | O => []
  | S budget' =>
      match iteration target_node g queue visited with
      | inl _ => []
      | inr (g', queue', visited') =>
          omap last (drop (length queue - 1) queue')
          ++ enqueued budget' target_node g' queue' visited'
      end
  end.

(** A graph with one step. *)
Definition one_step : AttackGraph := build [("A", "B", "x")%string] init.

(** ** Notions of the specification *)

(** The steps [self.graph[n]] reads: the stored list, or the empty list of
    a missing key. *)
Definition steps_of (g : PyDict.t (list step)) (n : string) : list step :=
  default [] (PyDict.get g n).

(** The nodes a step leads to from [n]. *)
Definition successors (g : PyDict.t (list step)) (n : string) : list string :=
  (steps_of g n).*1.

(** [chain g u rest]: every node of [rest] is reached from the one before
    it, the first from [u], by a stored step. *)
Fixpoint chain (g : PyDict.t (list step)) (u : string) (rest : list string) : Prop :=
  match rest with
  | [] => True
  | v :: rest' => v ∈ successors g u ∧ chain g v rest'
  end.

(** A directed walk of the graph from [s] to [t], as its list of nodes. *)
Definition attack_path (g : PyDict.t (list step)) (s t : string)
    (p : list string) : Prop :=
  ∃ rest, p = s :: rest ∧ chain g s rest ∧ last p = Some t.

(** Number of steps of a path. *)
Definition hops (p : list string) : nat := length p - 1.

(** [n] is the least number of steps of a walk from [s] to [t]. *)
Definition shortest_hops (g : PyDict.t (list step)) (s t : string) (n : nat) : Prop :=
  (∃ p, attack_path g s t p ∧ hops p = n)
  ∧ ∀ q, attack_path g s t q → n ≤ hops q.

(** The specification's [has_node]: a source or a target of a stored step. *)
Definition has_node (g : PyDict.t (list step)) (n : string) : Prop :=
  steps_of g n ≠ [] ∨ ∃ u, n ∈ successors g u.

(** ** Notions of the proofs *)

(** The shape in which the search builds its paths: [new_path] is
    [list(path)] with the neighbour appended. *)
Inductive reach (g : PyDict.t (list step)) (s : string) : list string → Prop :=
| reach_start : reach g s [s]
| reach_step p u v :
    reach g s p → last p = Some u → v ∈ successors g u → reach g s (p ++ [v]).

(** [v] is the last node of a path waiting in the queue. *)
Definition in_queue (v : string) (queue : list (list string)) : Prop :=
  ∃ p, p ∈ queue ∧ last p = Some v.

(** The queue holds paths of [d] steps followed by paths of [d + 1]
    steps; every walk shorter than that ends at a node that has left
    the queue, and no walk of [d] steps ends at a node queued with
    [d + 1]. *)
Record levels (g0 : PyDict.t (list step)) (s : string) (d : nat)
    (front back : list (list string)) (visited : gset string) : Prop := {
  lv_front : ∀ p, p ∈ front → length p = S d;
  lv_back : ∀ p, p ∈ back → length p = S (S d);
  lv_below : ∀ q v, reach g0 s q → last q = Some v → length q ≤ d →
               v ∈ visited ∧ ¬ in_queue v (front ++ back);
  lv_at : ∀ q v, reach g0 s q → last q = Some v → length q = S d →
               v ∈ visited ∧ ¬ in_queue v back
}.

Record bfs_inv (g0 : PyDict.t (list step)) (s t : string)
    (g : PyDict.t (list step)) (queue : list (list string))
    (visited : gset string) : Prop := {
  inv_graph : ∀ n, steps_of g n = steps_of g0 n;
  inv_start : s ∈ visited;
  inv_paths : ∀ p, p ∈ queue →
                reach g0 s p ∧ NoDup p ∧ ∀ v, v ∈ p → v ∈ visited;
  inv_levels : ∃ d front back, queue = front ++ back ∧ levels g0 s d front back visited;
  inv_done : ∀ v w, v ∈ visited → ¬ in_queue v queue →
                w ∈ successors g0 v → w ∈ visited;
  inv_target : ∀ v, v ∈ visited → ¬ in_queue v queue → v ≠ t
}.

(** The nodes some stored step leads to. *)
Definition targets (g : PyDict.t (list step)) : gset string :=
  list_to_set (concat g.*2).*1.

(** The dictionary only grows by keys that were missing, each with an
    empty list, added after the keys already there. *)
Definition grown (g0 g : PyDict.t (list step)) : Prop :=
  ∃ added, g = g0 ++ map (fun k => (k, [])) added
           ∧ ∀ k, k ∈ added → PyDict.get g0 k = None.

(** ** The drawing *)

(** [path_edges = list(zip(path, path[1:]))], the edges that
    [visualize_path] asks the library to highlight. *)
Definition path_edges (path : list string) : list (string * string) :=
  zip path (tail path).

(** ** What a search leaves behind *)

(** The nodes the iterations expand, in order: the last node of every
    path that is taken from the queue and does not end the search, the
    node whose steps [self.graph[current_node]] reads. *)
Fixpoint expanded (budget : nat) (target_node : string)
    (g : PyDict.t (list step)) (queue : list (list string)) (visited : gset string)
  : list string :=
  match budget with
  | O => []
  | S budget' =>
      match iteration target_node g queue visited with
      | inl _ => []
      | inr (g', queue', visited') =>
          option_list (head queue ≫= last)
          ++ expanded budget' target_node g' queue' visited'
      end
  end.

(** The nodes a call of the method expands: none when the start node
    fails the first test. *)
Definition expanded_by (self : AttackGraph) (start_node target_node : string)
  : list string :=
  if start_missing self start_node then []
  else expanded (budget_for (graph self)) target_node
         (graph self) [[start_node]] {[start_node]}.


(** ** Graphs the methods produce *)

(** The objects a program can hold: a new [AttackGraph()], changed by
    calls of [add_attack_step] and of [find_shortest_attack_path_bfs]. *)
Inductive built : AttackGraph → Prop :=
| built_init : built init
| built_step self source target exploit_name :
    built self → built (add_attack_step self source target exploit_name).1
| built_search self start_node target_node r self' out :
    built self →
    find_shortest_attack_path_bfs self start_node target_node = Some (r, self', out) →
    built self'.

(** The label [G[u][v]['label']] of an edge, if the edge is there. *)
Definition edge_label (G : nx.DiGraph) (u v : string) : option string :=
  PyDict.get G u ≫= fun nbrs => PyDict.get nbrs v.

(** The two structures of the class tell the same graph. *)
Record mirrors (self : AttackGraph) : Prop := {
  mi_nodup : NoDup (PyDict.keys (visual_graph self));
  mi_edges : ∀ u v, is_Some (edge_label (visual_graph self) u v)
                    ↔ v ∈ successors (graph self) u;
  mi_keys : ∀ k, is_Some (PyDict.get (graph self) k)
                 → is_Some (PyDict.get (visual_graph self) k);
  mi_targets : ∀ u v, v ∈ successors (graph self) u
                      → is_Some (PyDict.get (visual_graph self) v)
}.

(** The steps with source [n] among a list of calls, in call order. *)
Definition steps_from (n : string) (calls : list (string * string * string))
  : list step :=
  omap (fun '(source, target, exploit_name) =>
          if decide (source = n) then Some (target, exploit_name) else None) calls.

(** The exploit names of the calls with source [u] and target [v], in
    call order. *)
Definition labels_of (u v : string) (calls : list (string * string * string))
  : list string :=
  omap (fun '(source, target, exploit_name) =>
          if decide (source = u ∧ target = v) then Some exploit_name else None) calls.

(** ** The order of the stored steps *)

(** The position of the first step to [a] in a list of successors (the
    length of the list when there is none). *)
Fixpoint rank (l : list string) (a : string) : nat :=
  match l with
  | [] => 0
  | x :: l' => if decide (x = a) then 0 else S (rank l' a)
  end.

(** [earlier g p q]: the walks [p] and [q] have the same length and the
    same nodes up to some node [u]; there [p] goes on with a node whose
    first step is stored under [u] before the first step to the node [q]
    goes on with. *)
Inductive earlier (g : PyDict.t (list step)) : list string → list string → Prop :=
| earlier_here u a b r1 r2 :
    rank (successors g u) a < rank (successors g u) b →
    length r1 = length r2 →
    earlier g (u :: a :: r1) (u :: b :: r2)
| earlier_next u p q :
    earlier g p q → earlier g (u :: p) (u :: q).

(** The neighbours the loop over the successors [l] appends to the queue,
    in the order in which it appends them. *)
Fixpoint fresh (l : list string) (visited : gset string) : list string :=
  match l with
  | [] => []
  | n :: l' =>
      if decide (n ∈ visited) then fresh l' visited
      else n :: fresh l' ({[n]} ∪ visited)
  end.

(** What the queue keeps about ties: each path is the earliest of the
    walks of its length to its last node, paths of one length are queued
    from the earliest on, and a path one node longer than another in the
    queue extends a path earlier than that one. *)
Record tie_inv (g0 : PyDict.t (list step)) (s : string)
    (queue : list (list string)) : Prop := {
  tie_min : ∀ p q, p ∈ queue → reach g0 s q → last q = last p →
              length q = length p → q = p ∨ earlier g0 p q;
  tie_order : ∀ i j p q, queue !! i = Some p → queue !! j = Some q → i < j →
              length p = length q → earlier g0 p q;
  tie_parent : ∀ p f, p ∈ queue → f ∈ queue → length p = S (length f) →
              ∃ pp x, p = pp ++ [x] ∧ earlier g0 pp f
}.

(** ** The dictionary *)

Lemma get_set_eq {V} (d : PyDict.t V) k v : PyDict.get (PyDict.set d k v) k = Some v.
Proof.
  induction d as [|[k' v'] d IH]; simpl.
  - by rewrite decide_True.
  - destruct (decide (k' = k)) as [->|Hne]; simpl.
    + by rewrite decide_True.
    + by rewrite decide_False.
Qed.

Lemma get_set_ne {V} (d : PyDict.t V) k k' v :
  k ≠ k' → PyDict.get (PyDict.set d k v) k' = PyDict.get d k'.
Proof.
  intros Hne. induction d as [|[k0 v0] d IH]; simpl.
  - by rewrite decide_False.
  - destruct (decide (k0 = k)) as [->|Hne0]; simpl.
    + by rewrite !decide_False.
    + by rewrite IH.
Qed.

Lemma set_missing {V} (d : PyDict.t V) k v :
  PyDict.get d k = None → PyDict.set d k v = d ++ [(k, v)].
Proof.
  induction d as [|[k' v'] d IH]; simpl; [done|].
  destruct (decide (k' = k)); [done|]. intros H. by rewrite IH.
Qed.

Lemma getitem_steps (g : PyDict.t (list step)) k :
  (DefaultDict.getitem g k).1 = steps_of g k.
Proof. unfold DefaultDict.getitem, steps_of. by destruct (PyDict.get g k). Qed.

Lemma getitem_grows (g : PyDict.t (list step)) k :
  (DefaultDict.getitem g k).2 = g
  ∨ (PyDict.get g k = None ∧ (DefaultDict.getitem g k).2 = g ++ [(k, [])]).
Proof.
  unfold DefaultDict.getitem. destruct (PyDict.get g k) eqn:Hk; simpl; [by left|].
  right. split; [done|]. by apply set_missing.
Qed.

Lemma getitem_steps_of (g : PyDict.t (list step)) k n :
  steps_of (DefaultDict.getitem g k).2 n = steps_of g n.
Proof.
  unfold DefaultDict.getitem, steps_of.
  destruct (PyDict.get g k) eqn:Hk; simpl; [done|].
  destruct (decide (k = n)) as [<-|Hne].
  - by rewrite get_set_eq, Hk.
  - by rewrite get_set_ne.
Qed.

Lemma getitem_stored (g : PyDict.t (list step)) k :
  concat (DefaultDict.getitem g k).2.*2 = concat g.*2.
Proof.
  destruct (getitem_grows g k) as [->|[_ ->]]; [done|].
  rewrite fmap_app, concat_app. simpl. by rewrite app_nil_r.
Qed.

Lemma steps_of_stored (g : PyDict.t (list step)) n e :
  e ∈ steps_of g n → e ∈ concat g.*2.
Proof.
  unfold steps_of. induction g as [|[k v] g IH]; simpl.
  - by intros ?%elem_of_nil.
  - destruct (decide (k = n)); simpl; rewrite elem_of_app; auto.
Qed.

(** ** The loop over the neighbours *)

Lemma for_neighbors_spec path steps visited queue :
  ∃ new,
    for_neighbors path steps visited queue
    = (list_to_set new ∪ visited, queue ++ map (fun w => path ++ [w]) new)
    ∧ NoDup new
    ∧ ∀ w, w ∈ new ↔ w ∈ steps.*1 ∧ w ∉ visited.
Proof.
  unfold for_neighbors.
  revert visited queue. induction steps as [|[n e] steps IH]; intros visited queue; simpl.
  - exists []. simpl. split; [|split].
    + f_equal; [set_solver|by rewrite app_nil_r].
    + constructor.
    + set_solver.
  - destruct (decide (n ∈ visited)) as [Hin|Hnin].
    + destruct (IH visited queue) as (new & -> & Hnd & Hnew).
      exists new. split; [done|]. split; [done|].
      intros w. rewrite Hnew. set_solver.
    + destruct (IH ({[n]} ∪ visited) (queue ++ [path ++ [n]])) as (new & -> & Hnd & Hnew).
      exists (n :: new). split; [|split].
      * simpl. f_equal; [set_solver|]. by rewrite <- app_assoc.
      * constructor; [|done]. rewrite Hnew. set_solver.
      * intros w. rewrite !elem_of_cons, Hnew, not_elem_of_union, elem_of_singleton.
        split.
        -- intros [->|(? & ? & ?)]; auto.
        -- intros [Hw Hv]. destruct (decide (w = n)) as [|Hne]; [by left|].
           right. by destruct Hw.
Qed.

(** ** Walks *)

Lemma chain_snoc g u rest w :
  chain g u (rest ++ [w])
  ↔ chain g u rest ∧ ∃ x, last (u :: rest) = Some x ∧ w ∈ successors g x.
Proof.
  revert u. induction rest as [|v rest IH]; intros u; simpl.
  - split.
    + intros [H _]. split; [done|]. by exists u.
    + intros [_ (x & [= <-] & H)]. done.
  - rewrite IH. destruct rest; simpl; tauto.
Qed.

Lemma reach_chain g s p : reach g s p ↔ ∃ rest, p = s :: rest ∧ chain g s rest.
Proof.
  split.
  - induction 1 as [|p u v _ (rest & -> & Hc) Hl Hv].
    + by exists [].
    + exists (rest ++ [v]). split; [done|]. apply chain_snoc. eauto.
  - intros (rest & -> & Hc). induction rest as [|w rest IH] using rev_ind.
    + constructor.
    + apply chain_snoc in Hc as (Hc & x & Hl & Hw).
      change (reach g s ((s :: rest) ++ [w])). by eapply reach_step; eauto.
Qed.

Lemma reach_nonempty g s p : reach g s p → p ≠ [].
Proof. destruct 1; [done|]. by destruct p. Qed.

Lemma reach_single g s p : reach g s p → length p = 1 → p = [s].
Proof.
  destruct 1 as [|p u v Hp _ _]; [done|].
  rewrite length_app. simpl. intros Hlen.
  apply reach_nonempty in Hp. destruct p; simpl in *; [done|lia].
Qed.

Lemma attack_path_reach g s t p :
  attack_path g s t p ↔ reach g s p ∧ last p = Some t.
Proof.
  unfold attack_path. rewrite reach_chain. naive_solver.
Qed.

(** ** The loop, one iteration at a time *)

Lemma iteration_continues t g queue visited g' queue' visited' :
  iteration t g queue visited = inr (g', queue', visited') →
  ∃ path rest u new,
    queue = path :: rest ∧ last path = Some u ∧ u ≠ t
    ∧ g' = (DefaultDict.getitem g u).2
    ∧ visited' = list_to_set new ∪ visited
    ∧ queue' = rest ++ map (fun w => path ++ [w]) new
    ∧ NoDup new
    ∧ ∀ w, w ∈ new ↔ w ∈ successors g u ∧ w ∉ visited.
Proof.
  unfold iteration. destruct queue as [|path rest]; [done|].
  destruct (last path) as [u|] eqn:Hl; [|done].
  destruct (decide (u = t)) as [|Hne]; [done|].
  pose proof (getitem_steps g u) as Hs.
  destruct (DefaultDict.getitem g u) as [steps g1] eqn:Hg. simpl in Hs. subst steps.
  destruct (for_neighbors_spec path (steps_of g u) visited rest) as (new & -> & Hnd & Hnew).
  intros [= <- <- <-]. exists path, rest, u, new. by rewrite Hg.
Qed.

Lemma iteration_leaves t g queue visited r g' out :
  iteration t g queue visited = inl (r, g', out) →
  g' = g
  ∧ ((queue = [] ∧ r = Returned None ∧ out = [NoPathFound])
     ∨ (∃ rest, queue = [] :: rest ∧ r = IndexError ∧ out = [])
     ∨ (∃ path rest, queue = path :: rest ∧ last path = Some t
          ∧ r = Returned (Some path) ∧ out = [PathFound (length path - 1)])).
Proof.
  unfold iteration. destruct queue as [|path rest].
  - intros [= <- <- <-]. auto.
  - destruct (last path) as [u|] eqn:Hl.
    + destruct (decide (u = t)) as [->|Hne].
      * intros [= <- <- <-]. split; [done|]. right. right. by exists path, rest.
      * destruct (DefaultDict.getitem g u) as [steps g1].
        by destruct (for_neighbors path steps visited rest).
    + intros [= <- <- <-]. split; [done|]. right. left. exists rest.
      apply last_None in Hl. by subst.
Qed.

(** An invariant of the iterations holds where the loop is left. *)
Lemma while_queue_invariant
    (I : PyDict.t (list step) → list (list string) → gset string → Prop) t :
  (∀ g q v g' q' v', I g q v → iteration t g q v = inr (g', q', v') → I g' q' v') →
  ∀ budget g q v res,
    I g q v → while_queue budget t g q v = Some res →
    ∃ g1 q1 v1, I g1 q1 v1 ∧ iteration t g1 q1 v1 = inl res.
Proof.
  intros Hstep. induction budget as [|budget IH]; intros g q v res HI; simpl; [done|].
  destruct (iteration t g q v) as [r|[[g' q'] v']] eqn:Hit.
  - intros [= ->]. eauto.
  - intros Hw. eapply IH; [|exact Hw]. eauto.
Qed.

(** A larger budget does not change a result. *)
Lemma while_queue_mono budget budget' t g q v res :
  budget ≤ budget' →
  while_queue budget t g q v = Some res → while_queue budget' t g q v = Some res.
Proof.
  revert budget' g q v. induction budget as [|budget IH]; intros budget' g q v Hle; simpl; [done|].
  destruct budget' as [|budget']; [lia|]. simpl.
  destruct (iteration t g q v) as [r|[[g' q'] v']]; [done|].
  apply IH. lia.
Qed.

(** ** The queue *)

Lemma in_queue_nil v : ¬ in_queue v [].
Proof. intros (p & Hp & _). by apply elem_of_nil in Hp. Qed.

Lemma in_queue_cons v p queue :
  in_queue v (p :: queue) ↔ last p = Some v ∨ in_queue v queue.
Proof. unfold in_queue. setoid_rewrite elem_of_cons. naive_solver. Qed.

Lemma in_queue_app v q1 q2 :
  in_queue v (q1 ++ q2) ↔ in_queue v q1 ∨ in_queue v q2.
Proof. unfold in_queue. setoid_rewrite elem_of_app. naive_solver. Qed.

Lemma in_queue_extended v (path new : list string) :
  in_queue v (map (fun w => path ++ [w]) new) ↔ v ∈ new.
Proof.
  unfold in_queue. split.
  - intros (p & (w & -> & Hw)%list_elem_of_fmap & Hl).
    rewrite last_snoc in Hl. by injection Hl as <-.
  - intros Hv. exists (path ++ [v]). split; [|apply last_snoc].
    apply list_elem_of_fmap. eauto.
Qed.

(** ** The invariant of the breadth-first search *)

Section Search.

Variable g0 : PyDict.t (list step).
Variables s t : string.

Lemma levels_shift d back visited :
  (∀ v w, v ∈ visited → ¬ in_queue v back → w ∈ successors g0 v → w ∈ visited) →
  levels g0 s d [] back visited → levels g0 s (S d) back [] visited.
Proof.
  intros Hdone [_ Hback Hbelow Hat].
  assert (Hbelow' : ∀ q v, reach g0 s q → last q = Some v → length q ≤ S d →
                      v ∈ visited ∧ ¬ in_queue v back).
  { intros q v Hq Hl Hlen. destruct (decide (length q ≤ d)) as [Hle|Hgt].
    - by apply (Hbelow q v).
    - apply (Hat q v); [done..|lia]. }
  split.
  - done.
  - by intros p ?%elem_of_nil.
  - intros q v Hq Hl Hlen. rewrite app_nil_r. eauto.
  - intros q v Hq Hl Hlen. split; [|apply in_queue_nil].
    destruct Hq as [|p u w Hp Hu Hw]; [simpl in Hlen; lia|].
    rewrite last_snoc in Hl. injection Hl as ->.
    rewrite length_app in Hlen. simpl in Hlen.
    destruct (Hbelow' p u Hp Hu) as [Hvis Hnq]; [lia|]. eauto.
Qed.

Lemma bfs_inv_start : bfs_inv g0 s t g0 [[s]] {[s]}.
Proof.
  split.
  - done.
  - set_solver.
  - intros p ->%list_elem_of_singleton. split; [constructor|].
    split; [apply NoDup_singleton|]. set_solver.
  - exists 0, [[s]], []. split; [done|]. split.
    + by intros p ->%list_elem_of_singleton.
    + by intros p ?%elem_of_nil.
    + intros q v Hq _ Hlen. apply reach_nonempty in Hq. destruct q; simpl in *; [done|lia].
    + intros q v Hq Hl Hlen. apply reach_single in Hq; [|done]. subst q.
      injection Hl as <-. split; [set_solver|apply in_queue_nil].
  - intros v w ->%elem_of_singleton Hnq. destruct Hnq. apply in_queue_cons. by left.
  - intros v ->%elem_of_singleton Hnq. destruct Hnq. apply in_queue_cons. by left.
Qed.

Lemma bfs_inv_iteration g q v g' q' v' :
  bfs_inv g0 s t g q v → iteration t g q v = inr (g', q', v') → bfs_inv g0 s t g' q' v'.
Proof.
  intros [Hg Hs Hpaths Hlev Hdone Htarget]
    (path & rest & u & new & -> & Hu & Hut & -> & -> & -> & Hnd & Hnew)%iteration_continues.
  assert (Hnew0 : ∀ w, w ∈ new ↔ w ∈ successors g0 u ∧ w ∉ v).
  { intros w. rewrite Hnew. unfold successors. by rewrite Hg. }
  clear Hnew.
  assert (Hqueue : ∀ x, in_queue x (rest ++ map (fun w => path ++ [w]) new)
                        ↔ in_queue x rest ∨ x ∈ new).
  { intros x. by rewrite in_queue_app, in_queue_extended. }
  split.
  - intros n. by rewrite getitem_steps_of.
  - set_solver.
  - intros p [Hp|(w & -> & Hw)%list_elem_of_fmap]%elem_of_app.
    + destruct (Hpaths p) as (Hr & Hn & Hv); [set_solver|]. set_solver.
    + destruct (Hpaths path) as (Hr & Hn & Hv); [set_solver|].
      apply Hnew0 in Hw as Hw'. destruct Hw' as [Hsucc Hfresh]. split; [|split].
      * by eapply reach_step.
      * apply NoDup_app. split; [done|]. split; [|apply NoDup_singleton].
        intros x Hx ->%list_elem_of_singleton. auto.
      * intros x [Hx| ->%list_elem_of_singleton]%elem_of_app; set_solver.
  - destruct Hlev as (d & front & back & Hq & Hl).
    assert (∃ d front' back',
               levels g0 s d (path :: front') back' v ∧ rest = front' ++ back')
      as (d' & front' & back' & [Hfront Hback Hbelow Hat] & ->).
    { destruct front as [|p front]; simpl in Hq.
      - subst back. exists (S d), rest, []. split; [|by rewrite app_nil_r].
        apply levels_shift; [|done]. intros x w Hx Hnq. by apply Hdone.
      - injection Hq as -> ->. eauto. }
    clear d front back Hq Hl.
    exists d', front', (back' ++ map (fun w => path ++ [w]) new).
    split; [by rewrite app_assoc|]. split.
    + intros p Hp. apply Hfront. set_solver.
    + intros p [Hp|(w & -> & Hw)%list_elem_of_fmap]%elem_of_app; [by apply Hback|].
      rewrite length_app. simpl. rewrite (Hfront path); [lia|set_solver].
    + intros q x Hq' Hl' Hlen. destruct (Hbelow q x Hq' Hl' Hlen) as [Hx Hnq].
      split; [set_solver|]. rewrite app_assoc, Hqueue. intros [Hin|Hin].
      * apply Hnq. simpl. apply in_queue_cons. by right.
      * apply Hnew0 in Hin. tauto.
    + intros q x Hq' Hl' Hlen. destruct (Hat q x Hq' Hl' Hlen) as [Hx Hnq].
      split; [set_solver|]. rewrite in_queue_app, in_queue_extended. intros [Hin|Hin].
      * done.
      * apply Hnew0 in Hin. tauto.
  - intros x w Hx Hnq Hw. rewrite Hqueue in Hnq.
    destruct (decide (x = u)) as [->|Hne].
    + destruct (decide (w ∈ v)); [set_solver|].
      assert (w ∈ new) by (apply Hnew0; done). set_solver.
    + assert (x ∈ v) by set_solver.
      assert (w ∈ v); [|set_solver].
      apply (Hdone x w); [done| |done].
      rewrite in_queue_cons. intros [Hin|Hin]; [congruence|tauto].
  - intros x Hx Hnq. rewrite Hqueue in Hnq.
    destruct (decide (x = u)) as [->|Hne]; [done|].
    apply Htarget; [set_solver|].
    rewrite in_queue_cons. intros [Hin|Hin]; [congruence|tauto].
Qed.

(** Where the loop is left with a path, the path is a shortest walk. *)
Lemma bfs_inv_found g path rest visited :
  bfs_inv g0 s t g (path :: rest) visited → last path = Some t →
  reach g0 s path ∧ NoDup path
  ∧ ∀ q, reach g0 s q → last q = Some t → length path ≤ length q.
Proof.
  intros [_ _ Hpaths (d & front & back & Hq & [Hfront Hback Hbelow Hat]) _ _] Ht.
  destruct (Hpaths path) as (Hr & Hn & _); [set_solver|].
  split; [done|]. split; [done|].
  intros q Hq' Hl. apply Nat.nlt_ge. intros Hlt.
  assert (Hin : in_queue t (front ++ back)).
  { rewrite <- Hq. apply in_queue_cons. by left. }
  destruct front as [|p front]; simpl in Hq.
  - subst back. rewrite (Hback path) in Hlt; [|set_solver].
    destruct (decide (length q ≤ d)) as [Hle|Hgt].
    + by destruct (Hbelow q t Hq' Hl Hle).
    + destruct (Hat q t Hq' Hl) as [_ Hnq]; [lia|]. done.
  - injection Hq as <- _. rewrite (Hfront path) in Hlt; [|set_solver].
    destruct (Hbelow q t Hq' Hl) as [_ Hnq]; [lia|]. done.
Qed.

(** No path in the queue is empty, so [path[-1]] does not raise. *)
Lemma bfs_inv_nonempty g rest visited : ¬ bfs_inv g0 s t g ([] :: rest) visited.
Proof.
  intros [_ _ Hpaths _ _ _]. destruct (Hpaths []) as (Hr & _); [set_solver|].
  by apply reach_nonempty in Hr.
Qed.

(** Where the queue runs empty, no walk from the start ends at the
    target. *)
Lemma bfs_inv_exhausted g visited q :
  bfs_inv g0 s t g [] visited → reach g0 s q → last q ≠ Some t.
Proof.
  intros [_ Hs _ _ Hdone Htarget] Hq.
  assert (Hvis : ∀ x, last q = Some x → x ∈ visited).
  { induction Hq as [|p u w Hp IH Hu Hw]; intros x Hl.
    - by injection Hl as <-.
    - rewrite last_snoc in Hl. injection Hl as <-.
      apply (Hdone u w); [by apply IH|apply in_queue_nil|done]. }
  intros Hl. apply (Htarget t); [by apply Hvis|apply in_queue_nil|done].
Qed.

End Search.

(** ** The iteration budget *)

Lemma size_list_to_set_le (l : list string) :
  size (list_to_set l : gset string) ≤ length l.
Proof.
  induction l as [|x l IH].
  - change (size (∅ : gset string) ≤ 0). by rewrite size_empty.
  - change (size ({[x]} ∪ list_to_set l : gset string) ≤ S (length l)).
    rewrite size_union_alt, size_singleton.
    pose proof (subseteq_size (list_to_set l ∖ {[x]}) (list_to_set l : gset string)) as H.
    assert (list_to_set l ∖ {[x]} ⊆ (list_to_set l : gset string)) by set_solver.
    specialize (H ltac:(done)). lia.
Qed.

Lemma successors_targets g u w : w ∈ successors g u → w ∈ targets g.
Proof.
  unfold successors, targets. intros ([w' e] & -> & He)%list_elem_of_fmap.
  apply elem_of_list_to_set, list_elem_of_fmap. exists (w', e).
  split; [done|]. by eapply steps_of_stored.
Qed.

Lemma getitem_targets g k : targets (DefaultDict.getitem g k).2 = targets g.
Proof. unfold targets. by rewrite getitem_stored. Qed.

(** Each iteration takes one path from the queue and adds as many paths
    as it marks nodes visited: the queue length plus the number of
    unvisited targets goes down by one. *)
Lemma iteration_measure t g q v g' q' v' :
  iteration t g q v = inr (g', q', v') →
  S (length q' + size (targets g' ∖ v')) = length q + size (targets g ∖ v).
Proof.
  intros (path & rest & u & new & -> & Hu & Hut & -> & -> & -> & Hnd & Hnew)%iteration_continues.
  rewrite getitem_targets, length_app, length_map. simpl.
  assert (targets g ∖ v
          = list_to_set new ∪ targets g ∖ (list_to_set new ∪ v)) as ->.
  { apply set_eq. intros x. rewrite elem_of_union, !elem_of_difference,
      elem_of_union, elem_of_list_to_set.
    split.
    - intros [Hx Hv]. destruct (decide (x ∈ new)); [by left|]. right. tauto.
    - intros [Hx%Hnew|[Hx Hv]]; [|tauto]. destruct Hx as [Hx Hv].
      split; [by eapply successors_targets|done]. }
  rewrite (size_union (list_to_set new : gset string)
             (targets g ∖ (list_to_set new ∪ v))) by set_solver.
  rewrite (size_list_to_set (C:=gset string) new) by done.
  lia.
Qed.

Lemma while_queue_budget budget t g q v :
  length q + size (targets g ∖ v) < budget →
  is_Some (while_queue budget t g q v).
Proof.
  revert g q v. induction budget as [|budget IH]; intros g q v Hlt; simpl; [lia|].
  destruct (iteration t g q v) as [r|[[g' q'] v']] eqn:Hit; [done|].
  apply IH. apply iteration_measure in Hit. lia.
Qed.

Lemma budget_for_enough g s :
  length [[s]] + size (targets g ∖ {[s]}) < budget_for g.
Proof.
  unfold budget_for. simpl.
  pose proof (subseteq_size (targets g ∖ {[s]}) (targets g)) as H1.
  assert (targets g ∖ {[s]} ⊆ targets g) as H2 by set_solver. specialize (H1 H2).
  pose proof (size_list_to_set_le (concat g.*2).*1) as H3.
  change (size (targets g) ≤ length (concat g.*2).*1) in H3.
  rewrite length_fmap in H3. unfold step in *. lia.
Qed.

(** ** The loop as a whole *)

(** What the loop started by the method computes. *)
Lemma while_queue_result budget t g0 s r g out :
  while_queue budget t g0 [[s]] {[s]} = Some (r, g, out) →
  (∀ n, steps_of g n = steps_of g0 n)
  ∧ ((r = Returned None ∧ out = [NoPathFound] ∧ ∀ q, ¬ attack_path g0 s t q)
     ∨ (∃ p, r = Returned (Some p) ∧ out = [PathFound (length p - 1)]
          ∧ attack_path g0 s t p ∧ NoDup p
          ∧ ∀ q, attack_path g0 s t q → length p ≤ length q)).
Proof.
  intros Hw.
  destruct (while_queue_invariant (bfs_inv g0 s t) t (bfs_inv_iteration g0 s t)
              budget g0 [[s]] {[s]} (r, g, out) (bfs_inv_start g0 s t) Hw)
    as (g1 & q1 & v1 & Hinv & Hit).
  apply iteration_leaves in Hit as [-> Hit]. split; [apply Hinv|].
  destruct Hit as [(-> & -> & ->)|[(rest & -> & _)|(path & rest & -> & Hl & -> & ->)]].
  - left. split; [done|]. split; [done|].
    intros q [Hq Hl]%attack_path_reach. by eapply bfs_inv_exhausted.
  - by apply bfs_inv_nonempty in Hinv.
  - right. exists path. destruct (bfs_inv_found _ _ _ _ _ _ _ Hinv Hl) as (Hr & Hn & Hmin).
    split; [done|]. split; [done|]. split; [by apply attack_path_reach|].
    split; [done|]. intros q [Hq Hl']%attack_path_reach. auto.
Qed.

Lemma get_app_None {V} (d d' : PyDict.t V) k :
  PyDict.get (d ++ d') k = None → PyDict.get d k = None.
Proof.
  induction d as [|[k' v] d IH]; simpl; [done|]. by destruct (decide (k' = k)).
Qed.

Lemma get_app_Some {V} (d d' : PyDict.t V) k v :
  PyDict.get d k = Some v → PyDict.get (d ++ d') k = Some v.
Proof.
  induction d as [|[k' v'] d IH]; simpl; [done|]. by destruct (decide (k' = k)).
Qed.

Lemma while_queue_grown budget t g0 q v r g out :
  while_queue budget t g0 q v = Some (r, g, out) → grown g0 g.
Proof.
  intros Hw.
  assert (Hstep : ∀ g1 q1 v1 g' q' v',
             grown g0 g1 → iteration t g1 q1 v1 = inr (g', q', v') → grown g0 g').
  { intros g1 q1 v1 g' q' v' (added & -> & Hadded)
      (path & rest & u & new & -> & Hu & Hut & -> & _)%iteration_continues.
    destruct (getitem_grows (g0 ++ map (fun k => (k, [])) added) u) as [->|[Hnone ->]].
    - by exists added.
    - exists (added ++ [u]). split.
      + by rewrite map_app, app_assoc.
      + intros k [Hk| ->%list_elem_of_singleton]%elem_of_app; [by apply Hadded|].
        by eapply get_app_None. }
  assert (Hinit : grown g0 g0).
  { exists []. split; [by rewrite app_nil_r|]. by intros k ?%elem_of_nil. }
  destruct (while_queue_invariant (fun g _ _ => grown g0 g) t Hstep
              budget g0 q v (r, g, out) Hinit Hw) as (g1 & q1 & v1 & Hinv & Hit).
  by apply iteration_leaves in Hit as [-> _].
Qed.

(** The loop reads the dictionary only through [self.graph[n]]. *)
Lemma iteration_ext t g1 g2 q v :
  (∀ n, steps_of g1 n = steps_of g2 n) →
  match iteration t g1 q v, iteration t g2 q v with
  | inl (r1, _, out1), inl (r2, _, out2) => r1 = r2 ∧ out1 = out2
  | inr (g1', q1, v1), inr (g2', q2, v2) =>
      q1 = q2 ∧ v1 = v2 ∧ ∀ n, steps_of g1' n = steps_of g2' n
  | _, _ => False
  end.
Proof.
  intros Hg. unfold iteration. destruct q as [|path rest]; [done|].
  destruct (last path) as [u|]; [|done].
  destruct (decide (u = t)) as [|Hne]; [done|].
  pose proof (getitem_steps g1 u) as H1. pose proof (getitem_steps g2 u) as H2.
  pose proof (getitem_steps_of g1 u) as H3. pose proof (getitem_steps_of g2 u) as H4.
  destruct (DefaultDict.getitem g1 u) as [s1 g1'], (DefaultDict.getitem g2 u) as [s2 g2'].
  simpl in *. subst s1 s2. rewrite Hg.
  destruct (for_neighbors path (steps_of g2 u) v rest) as [v' q'].
  split; [done|]. split; [done|]. intros k. by rewrite H3, H4.
Qed.

Lemma while_queue_ext budget t g1 g2 q v r g1' out :
  (∀ n, steps_of g1 n = steps_of g2 n) →
  while_queue budget t g1 q v = Some (r, g1', out) →
  ∃ g2', while_queue budget t g2 q v = Some (r, g2', out).
Proof.
  revert g1 g2 q v. induction budget as [|budget IH]; intros g1 g2 q v Hg; simpl; [done|].
  pose proof (iteration_ext t g1 g2 q v Hg) as Hit.
  destruct (iteration t g1 q v) as [[[r1 h1] o1]|[[h1 q1] v1]],
           (iteration t g2 q v) as [[[r2 h2] o2]|[[h2 q2] v2]]; try done.
  - destruct Hit as [-> ->]. intros [= -> -> ->]. eauto.
  - destruct Hit as (-> & -> & Hg'). by apply IH.
Qed.

(** ** The method as a whole *)

Lemma find_cases self s t :
  (start_missing self s = true
   ∧ find_shortest_attack_path_bfs self s t
     = Some (Returned None, self, [StartNodeMissing s]))
  ∨ (start_missing self s = false
     ∧ ∃ r g out,
         while_queue (budget_for (graph self)) t (graph self) [[s]] {[s]}
         = Some (r, g, out)
         ∧ find_shortest_attack_path_bfs self s t
           = Some (r, {| graph := g; visual_graph := visual_graph self |},
                   SearchStarted s t :: out)).
Proof.
  unfold find_shortest_attack_path_bfs.
  destruct (start_missing self s); [by left|right]. split; [done|].
  destruct (while_queue_budget (budget_for (graph self)) t (graph self) [[s]] {[s]}
              (budget_for_enough (graph self) s)) as [[[r g] out] Hw].
  exists r, g, out. by rewrite Hw.
Qed.

Lemma omap_last_extended (path new : list string) :
  omap last (map (fun w => path ++ [w]) new) = new.
Proof.
  induction new as [|w new IH]; simpl; [done|]. rewrite last_snoc. f_equal. exact IH.
Qed.

Lemma enqueued_fresh budget t g q v :
  NoDup (enqueued budget t g q v) ∧ ∀ w, w ∈ enqueued budget t g q v → w ∉ v.
Proof.
  revert g q v. induction budget as [|budget IH]; intros g q v; simpl.
  { split; [constructor|]. by intros w ?%elem_of_nil. }
  destruct (iteration t g q v) as [res|[[g' q'] v']] eqn:Hit.
  { split; [constructor|]. by intros w ?%elem_of_nil. }
  destruct (IH g' q' v') as [Hnd Hfresh].
  apply iteration_continues in Hit
    as (path & rest & u & new & -> & Hu & Hut & -> & -> & -> & Hnew_nd & Hnew).
  simpl. rewrite Nat.sub_0_r, drop_app_length, omap_last_extended. split.
  - apply NoDup_app. split; [done|]. split; [|done].
    intros w Hw Hw'. apply Hfresh in Hw'. set_solver.
  - intros w [Hw|Hw]%elem_of_app.
    + by apply Hnew in Hw as [_ ?].
    + apply Hfresh in Hw. set_solver.
Qed.

Lemma start_known_grown self g s :
  grown (graph self) g →
  start_missing self s = false →
  start_missing {| graph := g; visual_graph := visual_graph self |} s = false.
Proof.
  intros (added & -> & _). unfold start_missing, PyDict.contains. simpl.
  intros [Hk|Hk]%andb_false_iff; apply andb_false_iff; [left|by right].
  apply negb_false_iff, bool_decide_eq_true in Hk as [x Hx].
  apply negb_false_iff, bool_decide_eq_true. exists x. by apply get_app_Some.
Qed.

(** Where a walk leads from a start node that passes the first test to
    the target node, the search returns a path. *)
Lemma reachable_target_returns_path self s t q :
  start_missing self s = false →
  attack_path (graph self) s t q →
  ∃ p, returned (find_shortest_attack_path_bfs self s t) = Some (Returned (Some p)).
Proof.
  intros Hm Hq.
  destruct (find_cases self s t) as [[? _]|(_ & r & g & out & Hw & ->)]; [congruence|].
  apply while_queue_result in Hw as [_ [(_ & _ & Hno)|(p & -> & _)]].
  - by apply Hno in Hq.
  - by exists p.
Qed.

(** ** The keys a search adds *)

Lemma while_queue_getitems budget t g q v r g' out :
  while_queue budget t g q v = Some (r, g', out) →
  g' = fold_left (fun d k => (DefaultDict.getitem d k).2) (expanded budget t g q v) g.
Proof.
  revert g q v. induction budget as [|budget IH]; intros g q v; simpl; [done|].
  destruct (iteration t g q v) as [res|[[g1 q1] v1]] eqn:Hit.
  - intros [= ->]. by apply iteration_leaves in Hit as [-> _].
  - intros Hw. apply IH in Hw.
    apply iteration_continues in Hit
      as (path & rest & u & new & -> & Hu & _ & -> & _).
    simpl. by rewrite Hu.
Qed.

Lemma filter_agree {A} (P1 P2 : A → Prop)
    `{!∀ x, Decision (P1 x), !∀ x, Decision (P2 x)} (l : list A) :
  (∀ x, x ∈ l → P1 x ↔ P2 x) → filter P1 l = filter P2 l.
Proof.
  induction l as [|x l IH]; intros Hl; [done|].
  rewrite !filter_cons, IH by (intros y Hy; apply Hl; by right).
  destruct (decide (P1 x)) as [H1|H1], (decide (P2 x)) as [H2|H2]; try done.
  - destruct H2. apply Hl; [by left|done].
  - destruct H1. apply Hl; [by left|done].
Qed.

(** Reading the nodes of a list through the defaultdict stores those that
    were missing, in the order of the list, after the keys already there. *)
Lemma getitems_missing (g : PyDict.t (list step)) l :
  NoDup l →
  fold_left (fun d k => (DefaultDict.getitem d k).2) l g
  = g ++ map (fun k => (k, [])) (filter (fun k => PyDict.get g k = None) l).
Proof.
  revert g. induction l as [|k l IH]; intros g Hnd; simpl.
  - by rewrite app_nil_r.
  - apply NoDup_cons in Hnd as [Hk Hnd]. rewrite IH by done.
    unfold DefaultDict.getitem. destruct (PyDict.get g k) as [x|] eqn:Hg; simpl.
    + by rewrite filter_cons_False by congruence.
    + rewrite filter_cons_True by done. simpl.
      rewrite (set_missing g k []) by done. rewrite <- app_assoc. simpl.
      do 3 f_equal. apply filter_agree. intros x Hx.
      rewrite <- (set_missing g k []) by done.
      rewrite get_set_ne; [done|]. by intros ->.
Qed.

(** No node is expanded twice. *)
Lemma expanded_fresh budget t g q v :
  NoDup (omap last q) → (∀ x, x ∈ omap last q → x ∈ v) →
  NoDup (expanded budget t g q v)
  ∧ ∀ k, k ∈ expanded budget t g q v → k ∈ omap last q ∨ k ∉ v.
Proof.
  revert g q v. induction budget as [|budget IH]; intros g q v Hnd Hsub; simpl.
  { split; [constructor|]. by intros k ?%elem_of_nil. }
  destruct (iteration t g q v) as [res|[[g' q'] v']] eqn:Hit.
  { split; [constructor|]. by intros k ?%elem_of_nil. }
  apply iteration_continues in Hit
    as (path & rest & u & new & -> & Hu & _ & -> & -> & -> & Hnew_nd & Hnew).
  simpl in *. rewrite Hu in *. simpl in *.
  apply NoDup_cons in Hnd as [Hu_rest Hnd_rest].
  destruct (IH (DefaultDict.getitem g u).2 (rest ++ map (fun w => path ++ [w]) new)
              (list_to_set new ∪ v)) as [Hnd' Hin'].
  { rewrite omap_app, omap_last_extended. apply NoDup_app. split; [done|].
    split; [|done]. intros x Hx Hx'. apply Hnew in Hx' as [_ Hx'].
    apply Hx'. apply Hsub. by right. }
  { intros x. rewrite omap_app, omap_last_extended.
    intros [Hx|Hx]%elem_of_app; [|set_solver].
    apply elem_of_union. right. apply Hsub. by right. }
  rewrite omap_app, omap_last_extended in Hin'.
  assert (Huv : u ∈ v) by (apply Hsub; by left).
  split.
  - constructor; [|done]. intros [[Hx|Hx]%elem_of_app|Hx]%Hin'.
    + done.
    + apply Hnew in Hx as [_ Hx]. done.
    + set_solver.
  - intros k [->|Hk]%elem_of_cons; [left; by left|].
    apply Hin' in Hk as [[Hx|Hx]%elem_of_app|Hx].
    + left. by right.
    + right. by apply Hnew in Hx as [_ Hx].
    + right. set_solver.
Qed.

Lemma expanded_by_NoDup self s t : NoDup (expanded_by self s t).
Proof.
  unfold expanded_by. destruct (start_missing self s); [constructor|].
  apply expanded_fresh; simpl.
  - apply NoDup_singleton.
  - intros x ->%list_elem_of_singleton. set_solver.
Qed.

(** ** Searches one after the other *)

Lemma grown_refl g : grown g g.
Proof. exists []. split; [by rewrite app_nil_r|]. by intros k ?%elem_of_nil. Qed.


(** A search keeps the visual graph and the steps of every node, and only
    lets the dictionary grow. *)
Lemma find_frame self s t r self' out :
  find_shortest_attack_path_bfs self s t = Some (r, self', out) →
  visual_graph self' = visual_graph self
  ∧ (∀ n, steps_of (graph self') n = steps_of (graph self) n)
  ∧ grown (graph self) (graph self').
Proof.
  intros Hfind.
  destruct (find_cases self s t) as [[_ H]|(_ & r' & g & out' & Hw & H)];
    rewrite H in Hfind; injection Hfind as <- <- <-.
  - split; [done|]. split; [done|]. apply grown_refl.
  - simpl. split; [done|]. split.
    + by apply while_queue_result in Hw as [Hg _].
    + by apply while_queue_grown in Hw.
Qed.






(** ** Properties of the search *)

Local Open Scope string_scope.

(** C1: a path returned by [find_shortest_attack_path_bfs] starts with the
    start node, ends with the target node, repeats no node, follows
    stored steps, and its number of steps is the least number of steps of
    any walk from the start node to the target node. *)
Theorem bfs_returns_shortest_path self s t p self' out :
  find_shortest_attack_path_bfs self s t = Some (Returned (Some p), self', out) →
  head p = Some s ∧ last p = Some t ∧ NoDup p
  ∧ attack_path (graph self) s t p
  ∧ shortest_hops (graph self) s t (hops p).
Proof.
  intros Hfind.
  destruct (find_cases self s t) as [[_ H]|(_ & r & g & out' & Hw & H)];
    rewrite H in Hfind; [done|].
  injection Hfind as -> _ _.
  apply while_queue_result in Hw as [_ [(? & _)|(p' & [= <-] & _ & Hp & Hn & Hmin)]]; [done|].
  assert (Hp' := Hp). destruct Hp' as (rest & -> & _ & Hl).
  split; [done|]. split; [done|]. split; [done|]. split; [done|]. split.
  - by exists (s :: rest).
  - intros q Hq. apply Hmin in Hq. unfold hops. lia.
Qed.

Lemma bfs_returns_shortest_path_witness :
  find_shortest_attack_path_bfs attack_net "Internet" "Database_SQL"
  = Some (Returned (Some ["Internet"; "WebServer"; "AppServer"; "Database_SQL"]),
          attack_net,
          [SearchStarted "Internet" "Database_SQL"; PathFound 3])
  ∧ shortest_hops (graph attack_net) "Internet" "Database_SQL" 3.
Proof.
  split; [vm_compute; reflexivity|].
  apply (bfs_returns_shortest_path attack_net "Internet" "Database_SQL"
           ["Internet"; "WebServer"; "AppServer"; "Database_SQL"] attack_net
           [SearchStarted "Internet" "Database_SQL"; PathFound 3]).
  vm_compute; reflexivity.
Defined.

(** C2 as stated fails: a search that takes a node without outgoing steps
    from the queue stores that node as a new key of [self.graph]. *)
Lemma search_adds_key :
  graph one_step = [("A", [("B", "x")])]
  ∧ find_shortest_attack_path_bfs one_step "A" "Z"
    = Some (Returned None,
            {| graph := [("A", [("B", "x")]); ("B", [])];
               visual_graph := visual_graph one_step |},
            [SearchStarted "A" "Z"; NoPathFound]).
Proof. split; vm_compute; reflexivity. Qed.

(** C2, amended: a search leaves [self.visual_graph] and the steps stored
    under every node unchanged, and keeps the keys of [self.graph] and
    their order; what it adds to [self.graph] is, in the order in which
    the loop expands them, every expanded node that was not yet a key,
    each with an empty list, after the existing keys. No node is expanded
    twice. *)
Theorem search_stores_expanded_nodes self s t r self' out :
  find_shortest_attack_path_bfs self s t = Some (r, self', out) →
  visual_graph self' = visual_graph self
  ∧ (∀ n, steps_of (graph self') n = steps_of (graph self) n)
  ∧ graph self'
    = (graph self
       ++ map (fun k => (k, []))
            (filter (fun k => PyDict.get (graph self) k = None)
               (expanded_by self s t)))%list
  ∧ NoDup (expanded_by self s t).
Proof.
  intros Hfind. pose proof (expanded_by_NoDup self s t) as Hnd.
  split; [by apply find_frame in Hfind as (? & _)|].
  split; [by apply find_frame in Hfind as (_ & ? & _)|].
  split; [|done]. unfold expanded_by in *.
  destruct (find_cases self s t) as [[Hm H]|(Hm & r' & g & out' & Hw & H)];
    rewrite H in Hfind; injection Hfind as <- <- <-; rewrite Hm in *.
  - simpl. by rewrite app_nil_r.
  - simpl. apply while_queue_getitems in Hw. rewrite Hw. by apply getitems_missing.
Qed.

Lemma search_stores_expanded_nodes_witness :
  expanded_by one_step "A" "Z" = ["A"; "B"]
  ∧ [("A", [("B", "x")]); ("B", [])]
    = (graph one_step
       ++ map (fun k => (k, []))
            (filter (fun k => PyDict.get (graph one_step) k = None)
               (expanded_by one_step "A" "Z")))%list.
Proof.
  split; [vm_compute; reflexivity|].
  apply (search_stores_expanded_nodes one_step "A" "Z" (Returned None)
           {| graph := [("A", [("B", "x")]); ("B", [])];
              visual_graph := visual_graph one_step |}
           [SearchStarted "A" "Z"; NoPathFound]).
  vm_compute; reflexivity.
Defined.

(** C3 as stated fails: an unknown start node and an exhausted search are
    answered with the same value, [None]. *)
Lemma failures_return_the_same_value :
  start_missing one_step "Z" = true
  ∧ start_missing one_step "A" = false
  ∧ returned (find_shortest_attack_path_bfs one_step "A" "Z") = Some (Returned None)
  ∧ returned (find_shortest_attack_path_bfs one_step "Z" "A")
    = returned (find_shortest_attack_path_bfs one_step "A" "Z").
Proof. repeat split; vm_compute; reflexivity. Qed.

(** C3, amended: the method returns [None] both when the start node fails
    its first test and when the search runs out of paths; the two cases
    differ only in what is printed, the message that the start node does
    not exist against the message that no attack path was found. *)
Theorem failures_differ_only_in_message self1 s1 t1 self2 s2 t2 :
  start_missing self1 s1 = true →
  start_missing self2 s2 = false →
  returned (find_shortest_attack_path_bfs self2 s2 t2) = Some (Returned None) →
  returned (find_shortest_attack_path_bfs self1 s1 t1)
  = returned (find_shortest_attack_path_bfs self2 s2 t2)
  ∧ printed (find_shortest_attack_path_bfs self1 s1 t1) = Some [StartNodeMissing s1]
  ∧ printed (find_shortest_attack_path_bfs self2 s2 t2)
    = Some [SearchStarted s2 t2; NoPathFound].
Proof.
  intros Hm1 Hm2 Hret.
  destruct (find_cases self1 s1 t1) as [[_ H1]|[? _]]; [|congruence].
  destruct (find_cases self2 s2 t2) as [[? _]|(_ & r & g & out & Hw & H2)]; [congruence|].
  rewrite H2 in Hret. rewrite H1, H2. simpl in Hret |- *. injection Hret as ->.
  split; [done|]. split; [done|].
  by apply while_queue_result in Hw as [_ [(_ & -> & _)|(p & ? & _)]].
Qed.

Lemma failures_differ_only_in_message_witness :
  returned (find_shortest_attack_path_bfs one_step "Z" "A")
  = returned (find_shortest_attack_path_bfs one_step "A" "Z")
  ∧ printed (find_shortest_attack_path_bfs one_step "Z" "A") = Some [StartNodeMissing "Z"]
  ∧ printed (find_shortest_attack_path_bfs one_step "A" "Z")
    = Some [SearchStarted "A" "Z"; NoPathFound].
Proof.
  apply (failures_differ_only_in_message one_step "Z" "A" one_step "A" "Z");
    vm_compute; reflexivity.
Defined.

(** C4: a node that is only the target of stored steps fails the first
    test of the method, which looks at the keys of [self.graph] and at the
    first components of the edges of [self.visual_graph]; the same node
    passes once an earlier search has stored it as a key. *)
Theorem search_from_target_only_node :
  has_node (graph one_step) "B"
  ∧ find_shortest_attack_path_bfs one_step "B" "A"
    = Some (Returned None, one_step, [StartNodeMissing "B"])
  ∧ ∃ self', find_shortest_attack_path_bfs one_step "A" "Z"
             = Some (Returned None, self', [SearchStarted "A" "Z"; NoPathFound])
      ∧ printed (find_shortest_attack_path_bfs self' "B" "A")
        = Some [SearchStarted "B" "A"; NoPathFound].
Proof.
  split; [|split].
  - right. exists "A". vm_compute. apply list_elem_of_here.
  - vm_compute; reflexivity.
  - eexists. split; vm_compute; reflexivity.
Qed.

(** C5: when the start node is a node of the graph and no walk leads from
    it to the target node, the method returns [None], never a path; where
    the start node passes the first test of the method, the message
    printed is the one of a search that found no path. *)
Theorem unreachable_target_returns_none self s t :
  has_node (graph self) s →
  (∀ q, ¬ attack_path (graph self) s t q) →
  returned (find_shortest_attack_path_bfs self s t) = Some (Returned None)
  ∧ (start_missing self s = false →
     printed (find_shortest_attack_path_bfs self s t)
     = Some [SearchStarted s t; NoPathFound]).
Proof.
  intros _ Hno.
  destruct (find_cases self s t) as [[Hm ->]|(Hm & r & g & out & Hw & ->)]; simpl.
  - split; [done|]. congruence.
  - apply while_queue_result in Hw as [_ [(-> & -> & _)|(p & _ & _ & Hp & _)]]; [done|].
    by apply Hno in Hp.
Qed.

Lemma unreachable_target_returns_none_witness :
  returned (find_shortest_attack_path_bfs attack_net "Internet" "Nowhere")
  = Some (Returned None)
  ∧ printed (find_shortest_attack_path_bfs attack_net "Internet" "Nowhere")
    = Some [SearchStarted "Internet" "Nowhere"; NoPathFound].
Proof.
  assert (Hno : ∀ q, ¬ attack_path (graph attack_net) "Internet" "Nowhere" q).
  { intros q Hq.
    destruct (find_cases attack_net "Internet" "Nowhere")
      as [[Hm _]|(_ & r & g & out & Hw & Hf)]; [by vm_compute in Hm|].
    apply while_queue_result in Hw as [_ [(_ & _ & Hno)|(p & -> & _)]].
    - by apply Hno in Hq.
    - by vm_compute in Hf. }
  destruct (unreachable_target_returns_none attack_net "Internet" "Nowhere") as [H1 H2].
  - left. by vm_compute.
  - exact Hno.
  - split; [exact H1|]. apply H2. vm_compute; reflexivity.
Defined.

(** C6: every call of [add_attack_step] appends exactly the entry
    (target, exploit name) at the end of the steps stored under the
    source, whatever was stored before: the number of steps of the source
    grows by one, and an entry already present is stored again. *)
Theorem add_attack_step_appends self source target exploit_name :
  steps_of (graph (add_attack_step self source target exploit_name).1) source
  = (steps_of (graph self) source ++ [(target, exploit_name)])%list
  ∧ length (steps_of (graph (add_attack_step self source target exploit_name).1) source)
    = S (length (steps_of (graph self) source)).
Proof.
  assert (steps_of (graph (add_attack_step self source target exploit_name).1) source
          = (steps_of (graph self) source ++ [(target, exploit_name)])%list) as ->.
  { unfold add_attack_step. pose proof (getitem_steps (graph self) source) as Hs.
    destruct (DefaultDict.getitem (graph self) source) as [steps g]. simpl in *.
    subst steps. unfold steps_of at 1. by rewrite get_set_eq. }
  split; [done|]. rewrite length_app. simpl. lia.
Qed.

(** The steps stored under the other nodes stay as they are. *)
Lemma add_attack_step_others self source target exploit_name n :
  n ≠ source →
  steps_of (graph (add_attack_step self source target exploit_name).1) n
  = steps_of (graph self) n.
Proof.
  intros Hne. unfold add_attack_step.
  pose proof (getitem_steps_of (graph self) source n) as Hs.
  destruct (DefaultDict.getitem (graph self) source) as [steps g]. simpl in *.
  rewrite <- Hs. unfold steps_of. by rewrite get_set_ne.
Qed.

(** An identical step inserted twice is stored twice. *)
Example add_attack_step_twice :
  steps_of (graph (build [("A", "B", "x"); ("A", "B", "x")] init)) "A"
  = [("B", "x"); ("B", "x")].
Proof. reflexivity. Qed.

(** C7: on the topology of the main block the search from "Internet" to
    "Database_SQL" returns [Internet, WebServer, AppServer, Database_SQL]:
    a path of 4 nodes and 3 steps, one of the two named in the
    specification, and not the path of 4 steps through the printer. *)
Theorem sample_topology_shortest_path :
  ∃ p, returned (find_shortest_attack_path_bfs attack_net "Internet" "Database_SQL")
       = Some (Returned (Some p))
    ∧ length p = 4 ∧ hops p = 3
    ∧ (p = ["Internet"; "WebServer"; "AppServer"; "Database_SQL"]
       ∨ p = ["Internet"; "WebServer"; "FileServer"; "Database_SQL"])
    ∧ p ≠ ["Internet"; "VPN_Gateway"; "Internal_PC"; "Printer"; "Database_SQL"].
Proof.
  exists ["Internet"; "WebServer"; "AppServer"; "Database_SQL"].
  split; [vm_compute; reflexivity|]. split; [done|]. split; [done|].
  split; [by left|done].
Qed.

(** C8: where the step from a node to itself is stored, the search from
    that node to itself ends in its first iteration with the path made of
    that node alone. *)
Theorem self_loop_trivial_path self a exploit_name :
  (a, exploit_name) ∈ steps_of (graph self) a →
  find_shortest_attack_path_bfs self a a
  = Some (Returned (Some [a]), self, [SearchStarted a a; PathFound 0]).
Proof.
  intros Hin. unfold find_shortest_attack_path_bfs, start_missing, PyDict.contains.
  unfold steps_of in Hin. destruct (PyDict.get (graph self) a) as [steps|] eqn:Ha;
    [|by apply elem_of_nil in Hin].
  rewrite bool_decide_eq_true_2 by eauto. simpl.
  rewrite decide_True by done. simpl. by destruct self.
Qed.

Lemma self_loop_trivial_path_witness :
  find_shortest_attack_path_bfs (build [("A", "A", "x")] init) "A" "A"
  = Some (Returned (Some ["A"]), build [("A", "A", "x")] init,
          [SearchStarted "A" "A"; PathFound 0]).
Proof.
  apply (self_loop_trivial_path (build [("A", "A", "x")] init) "A" "x").
  vm_compute. apply list_elem_of_here.
Defined.

(** A search and the same search run again on the graph the first one
    leaves behind return the same value and print the same messages. *)
Theorem search_repeatable self s t :
  ∃ r out self1 self2,
    find_shortest_attack_path_bfs self s t = Some (r, self1, out)
    ∧ find_shortest_attack_path_bfs self1 s t = Some (r, self2, out).
Proof.
  destruct (find_cases self s t) as [[Hm H]|(Hm & r & g & out & Hw & H)].
  - exists (Returned None), [StartNodeMissing s], self, self. by rewrite H.
  - exists r, (SearchStarted s t :: out),
      {| graph := g; visual_graph := visual_graph self |}.
    set (self1 := {| graph := g; visual_graph := visual_graph self |}).
    assert (Hk : start_missing self1 s = false).
    { apply start_known_grown; [by eapply while_queue_grown|done]. }
    destruct (find_cases self1 s t) as [[Hm1 _]|(_ & r2 & g2 & out2 & Hw2 & H2)].
    + congruence.
    + exists {| graph := g2; visual_graph := visual_graph self |}.
      split; [done|]. rewrite H2. unfold self1 in *. cbn [graph visual_graph] in *.
      apply while_queue_result in Hw as Hg. destruct Hg as [Hg _].
      destruct (while_queue_ext (budget_for (graph self)) t (graph self) g
                  [[s]] {[s]} r g out) as [g2' Hw1]; [done|done|].
      set (b := budget_for (graph self) `max` budget_for g).
      apply (while_queue_mono _ b) in Hw1; [|lia].
      apply (while_queue_mono _ b) in Hw2; [|lia].
      rewrite Hw1 in Hw2. by injection Hw2 as <- <- <-.
Qed.




(** C10: the search ends on every graph, returning a value: the loop is
    left within the budget of one iteration more than there are stored
    steps and the start node, and with any larger budget gives the same
    result; no node is put in the queue twice. *)
Theorem search_terminates self s t :
  (∃ r self' out,
     find_shortest_attack_path_bfs self s t = Some (Returned r, self', out))
  ∧ (∃ res, ∀ budget, (budget_for (graph self) <= budget)%nat →
       while_queue budget t (graph self) [[s]] {[s]} = Some res)
  ∧ ∀ budget, NoDup (s :: enqueued budget t (graph self) [[s]] {[s]}).
Proof.
  split; [|split].
  - destruct (find_cases self s t) as [[_ H]|(_ & r & g & out & Hw & H)];
      rewrite H; [eauto|].
    apply while_queue_result in Hw as [_ [(-> & _)|(p & -> & _)]]; eauto.
  - destruct (while_queue_budget (budget_for (graph self)) t (graph self) [[s]] {[s]}
                (budget_for_enough (graph self) s)) as [res Hw].
    exists res. intros budget Hle. by eapply while_queue_mono.
  - intros budget.
    destruct (enqueued_fresh budget t (graph self) [[s]] {[s]}) as [Hnd Hfresh].
    constructor; [|done]. intros Hs%Hfresh. set_solver.
Qed.

Lemma search_terminates_witness :
  ∃ res, ∀ budget, (budget_for (graph attack_net) <= budget)%nat →
    while_queue budget "Nowhere" (graph attack_net) [["Internet"]] {["Internet"]}
    = Some res.
Proof. apply (search_terminates attack_net "Internet" "Nowhere"). Defined.

Local Close Scope string_scope.

(** ** Dictionaries, once more *)

Lemma get_is_Some_keys {V} (d : PyDict.t V) k :
  is_Some (PyDict.get d k) ↔ k ∈ PyDict.keys d.
Proof.
  unfold PyDict.keys. induction d as [|[k' v] d IH]; simpl.
  - rewrite elem_of_nil. split; [by intros [? ?]|done].
  - rewrite elem_of_cons. destruct (decide (k' = k)) as [->|Hne].
    + split; [by left|eauto].
    + rewrite IH. naive_solver.
Qed.

Lemma keys_set {V} (d : PyDict.t V) k v :
  PyDict.keys (PyDict.set d k v)
  = if decide (k ∈ PyDict.keys d) then PyDict.keys d else PyDict.keys d ++ [k].
Proof.
  unfold PyDict.keys. induction d as [|[k' v'] d IH]; simpl; [done|].
  destruct (decide (k' = k)) as [->|Hne]; simpl.
  - destruct (decide (k ∈ k :: _)) as [|Hn]; [done|]. destruct Hn. by left.
  - unfold fmap in *. rewrite IH. clear IH.
    destruct (decide (k ∈ _)) as [Hin|Hnin], (decide (k ∈ k' :: _)) as [Hin'|Hnin'];
      try done.
    + destruct Hnin'. by right.
    + by apply elem_of_cons in Hin' as [?|?].
Qed.

Lemma keys_set_NoDup {V} (d : PyDict.t V) k v :
  NoDup (PyDict.keys d) → NoDup (PyDict.keys (PyDict.set d k v)).
Proof.
  intros Hnd. rewrite keys_set. destruct (decide (k ∈ PyDict.keys d)); [done|].
  apply NoDup_app. split; [done|]. split; [|apply NoDup_singleton].
  intros x Hx ->%list_elem_of_singleton. done.
Qed.

Lemma get_Some_elem_of {V} (d : PyDict.t V) k v :
  NoDup (PyDict.keys d) → PyDict.get d k = Some v ↔ (k, v) ∈ d.
Proof.
  unfold PyDict.keys. induction d as [|[k' v'] d IH]; simpl; intros Hnd.
  - rewrite elem_of_nil. naive_solver.
  - apply NoDup_cons in Hnd as [Hk' Hnd]. rewrite elem_of_cons.
    destruct (decide (k' = k)) as [->|Hne].
    + split; [intros [= ->]; by left|]. intros [[= ->]|Hin]; [done|].
      destruct Hk'. apply list_elem_of_fmap. by exists (k, v).
    + rewrite IH by done. naive_solver.
Qed.

Lemma getitem_get {A} (g : PyDict.t (list A)) u k :
  PyDict.get (DefaultDict.getitem g u).2 k
  = match PyDict.get g k with
    | Some x => Some x
    | None => if decide (u = k) then Some [] else None
    end.
Proof.
  unfold DefaultDict.getitem. destruct (PyDict.get g u) as [x|] eqn:Hu; simpl.
  - destruct (PyDict.get g k) eqn:Hk; [done|].
    destruct (decide (u = k)) as [->|]; [congruence|done].
  - destruct (decide (u = k)) as [->|Hne].
    + by rewrite get_set_eq, Hu.
    + rewrite get_set_ne by done. by destruct (PyDict.get g k).
Qed.

(** ** The visual graph *)

Lemma get_add_node G n k :
  PyDict.get (nx.add_node G n) k
  = match PyDict.get G k with
    | Some x => Some x
    | None => if decide (n = k) then Some PyDict.empty else None
    end.
Proof.
  unfold nx.add_node, PyDict.contains. case_bool_decide as Hn.
  - destruct (PyDict.get G k) eqn:Hk; [done|].
    destruct (decide (n = k)) as [->|]; [|done]. rewrite Hk in Hn. by destruct Hn.
  - destruct (decide (n = k)) as [->|Hne].
    + rewrite get_set_eq. destruct (PyDict.get G k) eqn:Hk; [|done].
      destruct Hn. eauto.
    + rewrite get_set_ne by done. by destruct (PyDict.get G k).
Qed.

Lemma keys_add_node_NoDup G n :
  NoDup (PyDict.keys G) → NoDup (PyDict.keys (nx.add_node G n)).
Proof.
  intros Hnd. unfold nx.add_node. destruct (PyDict.contains G n); [done|].
  by apply keys_set_NoDup.
Qed.

Lemma edge_label_add_node G n u v :
  edge_label (nx.add_node G n) u v = edge_label G u v.
Proof.
  unfold edge_label. rewrite get_add_node.
  destruct (PyDict.get G u); [done|]. by destruct (decide (n = u)).
Qed.

(** [add_edge] sets the label of its edge and keeps the other labels. *)
Lemma edge_label_add_edge G u v label u' v' :
  edge_label (nx.add_edge G u v label) u' v'
  = if decide (u' = u ∧ v' = v) then Some label else edge_label G u' v'.
Proof.
  unfold nx.add_edge.
  rewrite <- (edge_label_add_node G u u' v'),
          <- (edge_label_add_node (nx.add_node G u) v u' v').
  generalize (nx.add_node (nx.add_node G u) v). intros G2.
  unfold edge_label. destruct (decide (u' = u)) as [->|Hu].
  - rewrite get_set_eq. simpl. destruct (decide (v' = v)) as [->|Hv].
    + rewrite get_set_eq. by rewrite decide_True.
    + rewrite get_set_ne by done. rewrite decide_False by tauto.
      by destruct (PyDict.get G2 u).
  - rewrite get_set_ne by done. by rewrite decide_False by tauto.
Qed.

Lemma get_add_edge_is_Some G u v label k :
  is_Some (PyDict.get (nx.add_edge G u v label) k)
  ↔ is_Some (PyDict.get G k) ∨ k = u ∨ k = v.
Proof.
  unfold nx.add_edge. destruct (decide (u = k)) as [->|Hu].
  - rewrite get_set_eq. split; [auto|eauto].
  - rewrite get_set_ne, !get_add_node by done.
    destruct (PyDict.get G k); [split; eauto|].
    rewrite (decide_False (P:=u = k)) by done.
    destruct (decide (v = k)) as [->|Hv]; [split; eauto|].
    split; [by intros [? ?]|]. intros [[? ?]|[?|?]]; congruence.
Qed.

Lemma keys_add_edge_NoDup G u v label :
  NoDup (PyDict.keys G) → NoDup (PyDict.keys (nx.add_edge G u v label)).
Proof.
  intros Hnd. unfold nx.add_edge. by apply keys_set_NoDup, keys_add_node_NoDup, keys_add_node_NoDup.
Qed.

(** With one entry per node, the edges of the view are the pairs with a
    label. *)
Lemma edges_edge_label G u v :
  NoDup (PyDict.keys G) → (u, v) ∈ nx.edges G ↔ is_Some (edge_label G u v).
Proof.
  intros Hnd. unfold nx.edges, edge_label.
  rewrite list_elem_of_In, in_flat_map. split.
  - intros ([n nbrs] & Hin & Hv). apply in_map_iff in Hv as (nbr & [= -> ->] & Hnbr).
    apply list_elem_of_In, get_Some_elem_of in Hin; [|done]. rewrite Hin. simpl.
    by apply get_is_Some_keys, list_elem_of_In.
  - destruct (PyDict.get G u) as [nbrs|] eqn:Hu; simpl; [|by intros [? ?]].
    intros Hv. exists (u, nbrs). split.
    + by apply list_elem_of_In, get_Some_elem_of.
    + apply in_map_iff. exists v. split; [done|].
      by apply list_elem_of_In, get_is_Some_keys.
Qed.

(** ** The adjacency lists after a call *)

Lemma add_attack_step_successors self source target exploit_name u :
  successors (graph (add_attack_step self source target exploit_name).1) u
  = if decide (u = source) then successors (graph self) source ++ [target]
    else successors (graph self) u.
Proof.
  unfold add_attack_step, successors.
  pose proof (getitem_steps (graph self) source) as Hs.
  pose proof (getitem_steps_of (graph self) source u) as Hu.
  destruct (DefaultDict.getitem (graph self) source) as [steps g]. simpl in *. subst steps.
  unfold steps_of at 1. destruct (decide (u = source)) as [->|Hne].
  - rewrite get_set_eq. simpl. by rewrite fmap_app.
  - rewrite get_set_ne by done. by rewrite <- Hu.
Qed.

Lemma add_attack_step_keys self source target exploit_name k :
  is_Some (PyDict.get (graph (add_attack_step self source target exploit_name).1) k)
  ↔ is_Some (PyDict.get (graph self) k) ∨ k = source.
Proof.
  unfold add_attack_step.
  pose proof (getitem_get (graph self) source k) as Hk.
  destruct (DefaultDict.getitem (graph self) source) as [steps g]. simpl in *.
  destruct (decide (source = k)) as [->|Hne].
  - rewrite get_set_eq. split; [auto|eauto].
  - rewrite get_set_ne, Hk by done. destruct (PyDict.get (graph self) k); [split; eauto|].
    split; [by intros [? ?]|]. intros [[? ?]|?]; congruence.
Qed.

(** ** The keys a search stores *)

Lemma reach_last_cases g s q k :
  reach g s q → last q = Some k → k = s ∨ ∃ u, k ∈ successors g u.
Proof.
  destruct 1 as [|p u v _ _ Hv]; intros Hl.
  - left. by injection Hl as <-.
  - right. rewrite last_snoc in Hl. injection Hl as <-. eauto.
Qed.

(** A key the loop stores is the last node of a path it took from the
    queue and expanded: a node reached from the start node, not the
    target node. *)
Lemma while_queue_added budget t g0 s r g out :
  while_queue budget t g0 [[s]] {[s]} = Some (r, g, out) →
  ∀ k, is_Some (PyDict.get g k) →
       is_Some (PyDict.get g0 k) ∨ (k ≠ t ∧ ∃ q, reach g0 s q ∧ last q = Some k).
Proof.
  intros Hw.
  set (I := fun (g : PyDict.t (list step)) (q : list (list string)) (v : gset string) =>
              bfs_inv g0 s t g q v
              ∧ ∀ k, is_Some (PyDict.get g k) →
                     is_Some (PyDict.get g0 k)
                     ∨ (k ≠ t ∧ ∃ q', reach g0 s q' ∧ last q' = Some k)).
  assert (Hstep : ∀ g1 q1 v1 g' q' v',
             I g1 q1 v1 → iteration t g1 q1 v1 = inr (g', q', v') → I g' q' v').
  { intros g1 q1 v1 g' q' v' [Hinv Hkeys] Hit. split; [by eapply bfs_inv_iteration|].
    apply iteration_continues in Hit
      as (path & rest & u & new & -> & Hu & Hut & -> & _).
    intros k. rewrite getitem_get. destruct (PyDict.get g1 k) eqn:Hk.
    - intros _. apply Hkeys. by rewrite Hk.
    - destruct (decide (u = k)) as [<-|]; [|by intros [? ?]].
      intros _. right. split; [done|]. exists path. split; [|done].
      destruct Hinv as [_ _ Hpaths _ _ _]. apply Hpaths. by left. }
  assert (Hinit : I g0 [[s]] {[s]}).
  { split; [apply bfs_inv_start|]. auto. }
  destruct (while_queue_invariant I t Hstep budget g0 [[s]] {[s]} (r, g, out) Hinit Hw)
    as (g1 & q1 & v1 & [_ Hkeys] & Hit).
  by apply iteration_leaves in Hit as [-> _].
Qed.

(** ** The two structures agree *)

Lemma start_known_cases self s :
  start_missing self s = false →
  is_Some (PyDict.get (graph self) s) ∨ ∃ v, (s, v) ∈ nx.edges (visual_graph self).
Proof.
  unfold start_missing, PyDict.contains.
  intros [Hk|Hk]%andb_false_iff; apply negb_false_iff, bool_decide_eq_true in Hk.
  - by left.
  - right. apply list_elem_of_fmap in Hk as ([u v] & -> & Hin). by exists v.
Qed.

Lemma edge_label_source G u v :
  is_Some (edge_label G u v) → is_Some (PyDict.get G u).
Proof. unfold edge_label. destruct (PyDict.get G u); [eauto|by intros [? ?]]. Qed.

Lemma mirrors_init : mirrors init.
Proof.
  split; simpl.
  - constructor.
  - intros u v. unfold edge_label, successors, steps_of. simpl.
    rewrite elem_of_nil. split; [by intros [? ?]|done].
  - by intros k [? ?].
  - intros u v. unfold successors, steps_of. simpl. by intros ?%elem_of_nil.
Qed.

Lemma mirrors_step self source target exploit_name :
  mirrors self → mirrors (add_attack_step self source target exploit_name).1.
Proof.
  intros [Hnd Hedges Hkeys Htargets].
  assert (Hvis : visual_graph (add_attack_step self source target exploit_name).1
                 = nx.add_edge (visual_graph self) source target exploit_name).
  { unfold add_attack_step. by destruct (DefaultDict.getitem (graph self) source). }
  split.
  - rewrite Hvis. by apply keys_add_edge_NoDup.
  - intros u v. rewrite Hvis, edge_label_add_edge, add_attack_step_successors.
    destruct (decide (u = source)) as [->|Hu].
    + rewrite elem_of_app, list_elem_of_singleton, <- Hedges.
      destruct (decide (source = source ∧ v = target)) as [[_ ->]|Hn]; [split; eauto|].
      split; [auto|]. intros [?|?]; [done|tauto].
    + rewrite decide_False by tauto. apply Hedges.
  - intros k. rewrite Hvis, add_attack_step_keys, get_add_edge_is_Some.
    intros [?|?]; auto.
  - intros u v. rewrite Hvis, add_attack_step_successors, get_add_edge_is_Some.
    destruct (decide (u = source)) as [->|Hu].
    + intros [?|?%list_elem_of_singleton]%elem_of_app; eauto.
    + eauto.
Qed.

Lemma mirrors_search self s t r self' out :
  mirrors self →
  find_shortest_attack_path_bfs self s t = Some (r, self', out) → mirrors self'.
Proof.
  intros Hm Hfind.
  destruct (find_cases self s t) as [[_ H]|(Hknown & r' & g & out' & Hw & H)];
    rewrite H in Hfind; injection Hfind as <- <- <-; [done|].
  destruct Hm as [Hnd Hedges Hkeys Htargets].
  apply while_queue_result in Hw as Hg. destruct Hg as [Hg _].
  assert (Hsucc : ∀ u, successors g u = successors (graph self) u).
  { intros u. unfold successors. by rewrite Hg. }
  split; simpl.
  - done.
  - intros u v. by rewrite Hsucc.
  - intros k Hk. destruct (while_queue_added _ _ _ _ _ _ _ Hw k Hk)
      as [?|(_ & q & Hq & Hl)]; [auto|].
    destruct (reach_last_cases _ _ _ _ Hq Hl) as [->|[u Hu]]; [|eauto].
    destruct (start_known_cases self s Hknown) as [?|[v Hv]]; [auto|].
    apply edges_edge_label in Hv; [|done]. by eapply edge_label_source.
  - intros u v. rewrite Hsucc. apply Htargets.
Qed.

Lemma built_mirrors self : built self → mirrors self.
Proof.
  induction 1; eauto using mirrors_init, mirrors_step, mirrors_search.
Qed.

(** ** Sequences of calls *)

Lemma built_build calls self : built self → built (build calls self).
Proof.
  revert self. induction calls as [|[[a b] e] calls IH]; intros self Hb; [done|].
  apply IH. by constructor.
Qed.

Lemma add_attack_step_steps_of self source target exploit_name u :
  steps_of (graph (add_attack_step self source target exploit_name).1) u
  = if decide (source = u) then steps_of (graph self) u ++ [(target, exploit_name)]
    else steps_of (graph self) u.
Proof.
  unfold add_attack_step.
  pose proof (getitem_steps (graph self) source) as Hs.
  pose proof (getitem_steps_of (graph self) source u) as Hu.
  destruct (DefaultDict.getitem (graph self) source) as [steps g]. simpl in *. subst steps.
  unfold steps_of at 1. destruct (decide (source = u)) as [->|Hne].
  - by rewrite get_set_eq.
  - rewrite get_set_ne by done. by rewrite <- Hu.
Qed.

Lemma add_attack_step_visual self source target exploit_name :
  visual_graph (add_attack_step self source target exploit_name).1
  = nx.add_edge (visual_graph self) source target exploit_name.
Proof. unfold add_attack_step. by destruct (DefaultDict.getitem (graph self) source). Qed.

(** ** Walks and their edges *)

Lemma chain_edges g u rest a b :
  chain g u rest → (a, b) ∈ zip (u :: rest) rest → b ∈ successors g a.
Proof.
  revert u. induction rest as [|v rest IH]; intros u; simpl.
  - by intros _ ?%elem_of_nil.
  - intros [Hv Hc] [[= -> ->]|Hin]%elem_of_cons; [done|]. by eapply IH.
Qed.

Lemma chain_targets g u rest n :
  chain g u rest → n ∈ rest → ∃ u', n ∈ successors g u'.
Proof.
  revert u. induction rest as [|v rest IH]; intros u; simpl.
  - by intros _ ?%elem_of_nil.
  - intros [Hv Hc] [->|Hin]%elem_of_cons; [eauto|]. by eapply IH.
Qed.

Lemma chain_mono g g' u rest :
  (∀ a b, b ∈ successors g a → b ∈ successors g' a) →
  chain g u rest → chain g' u rest.
Proof.
  intros Hsub. revert u. induction rest as [|v rest IH]; intros u; simpl; [done|].
  intros [Hv Hc]. auto.
Qed.

(** ** The first test on graphs the methods produce *)

Lemma built_start_missing self s :
  built self → start_missing self s = negb (PyDict.contains (graph self) s).
Proof.
  intros [Hnd Hedges _ _]%built_mirrors. unfold start_missing.
  destruct (PyDict.contains (graph self) s) eqn:Hc; [done|]. simpl.
  apply negb_true_iff, bool_decide_eq_false.
  intros ([u v] & -> & Hin)%list_elem_of_fmap. simpl in Hc.
  apply edges_edge_label in Hin; [|done]. apply Hedges in Hin.
  unfold successors, steps_of, PyDict.contains in *.
  destruct (PyDict.get (graph self) u); [|by apply elem_of_nil in Hin].
  by rewrite bool_decide_eq_true_2 in Hc by eauto.
Qed.

(** ** Searches on graphs with the same successors *)

Lemma for_neighbors_fst path (steps1 steps2 : list step) visited queue :
  steps1.*1 = steps2.*1 →
  for_neighbors path steps1 visited queue = for_neighbors path steps2 visited queue.
Proof.
  unfold for_neighbors. revert steps2 visited queue.
  induction steps1 as [|[n1 e1] steps1 IH]; intros [|[n2 e2] steps2] visited queue;
    simpl; try done.
  intros [= -> Heq]. destruct (decide (n2 ∈ visited)); by apply IH.
Qed.

Lemma iteration_same_successors t g1 g2 q v :
  (∀ n, successors g1 n = successors g2 n) →
  match iteration t g1 q v, iteration t g2 q v with
  | inl (r1, _, out1), inl (r2, _, out2) => r1 = r2 ∧ out1 = out2
  | inr (g1', q1, v1), inr (g2', q2, v2) =>
      q1 = q2 ∧ v1 = v2 ∧ ∀ n, successors g1' n = successors g2' n
  | _, _ => False
  end.
Proof.
  intros Hg. unfold iteration. destruct q as [|path rest]; [done|].
  destruct (last path) as [u|]; [|done].
  destruct (decide (u = t)) as [|Hne]; [done|].
  pose proof (getitem_steps g1 u) as H1. pose proof (getitem_steps g2 u) as H2.
  pose proof (getitem_steps_of g1 u) as H3. pose proof (getitem_steps_of g2 u) as H4.
  destruct (DefaultDict.getitem g1 u) as [s1 g1'], (DefaultDict.getitem g2 u) as [s2 g2'].
  simpl in *. subst s1 s2.
  rewrite (for_neighbors_fst path (steps_of g1 u) (steps_of g2 u)) by apply Hg.
  destruct (for_neighbors path (steps_of g2 u) v rest) as [v' q'].
  split; [done|]. split; [done|]. intros k. unfold successors. rewrite H3, H4. apply Hg.
Qed.

Lemma while_queue_same_successors budget t g1 g2 q v r g1' out :
  (∀ n, successors g1 n = successors g2 n) →
  while_queue budget t g1 q v = Some (r, g1', out) →
  ∃ g2', while_queue budget t g2 q v = Some (r, g2', out).
Proof.
  revert g1 g2 q v. induction budget as [|budget IH]; intros g1 g2 q v Hg; simpl; [done|].
  pose proof (iteration_same_successors t g1 g2 q v Hg) as Hit.
  destruct (iteration t g1 q v) as [[[r1 h1] o1]|[[h1 q1] v1]],
           (iteration t g2 q v) as [[[r2 h2] o2]|[[h2 q2] v2]]; try done.
  - destruct Hit as [-> ->]. intros [= -> -> ->]. eauto.
  - destruct Hit as (-> & -> & Hg'). by apply IH.
Qed.

(** ** Further properties *)

Local Open Scope string_scope.

(** X1: on every graph produced by the methods, [self.visual_graph] has
    the edge from [u] to [v] exactly when a step from [u] to [v] is
    stored in [self.graph]. *)
Theorem visual_graph_mirrors_steps self u v :
  built self →
  (u, v) ∈ nx.edges (visual_graph self)
  ↔ ∃ exploit_name, (v, exploit_name) ∈ steps_of (graph self) u.
Proof.
  intros [Hnd Hedges _ _]%built_mirrors.
  rewrite edges_edge_label, Hedges by done. unfold successors.
  rewrite list_elem_of_fmap. split.
  - intros ([v' e] & -> & Hin). by exists e.
  - intros [e Hin]. by exists (v, e).
Qed.

Lemma visual_graph_mirrors_steps_witness :
  ("Internet", "WebServer") ∈ nx.edges (visual_graph attack_net)
  ↔ ∃ exploit_name,
      ("WebServer", exploit_name) ∈ steps_of (graph attack_net) "Internet".
Proof.
  apply (visual_graph_mirrors_steps attack_net "Internet" "WebServer").
  apply built_build, built_init.
Defined.

(** X2: on every graph produced by the methods, the first test of the
    search rejects a start node exactly when it is not a key of
    [self.graph]; the look at the edges of [self.visual_graph] never
    changes the verdict. *)
Theorem start_test_is_key_membership self s :
  built self →
  start_missing self s = negb (PyDict.contains (graph self) s).
Proof. apply built_start_missing. Qed.

Lemma start_test_is_key_membership_witness :
  start_missing attack_net "Database_SQL"
  = negb (PyDict.contains (graph attack_net) "Database_SQL").
Proof.
  apply (start_test_is_key_membership attack_net "Database_SQL").
  apply built_build, built_init.
Defined.

(** X3: right after [add_attack_step(source, target, ...)] with two
    different nodes, the search from [source] to [target] returns the
    path [[source, target]], whatever the graph held before. *)
Theorem search_after_add_attack_step self source target exploit_name :
  source ≠ target →
  returned (find_shortest_attack_path_bfs
              (add_attack_step self source target exploit_name).1 source target)
  = Some (Returned (Some [source; target])).
Proof.
  intros Hne. set (self' := (add_attack_step self source target exploit_name).1).
  assert (Hknown : start_missing self' source = false).
  { unfold start_missing, PyDict.contains. rewrite bool_decide_eq_true_2; [done|].
    apply add_attack_step_keys. by right. }
  assert (Hwalk : attack_path (graph self') source target [source; target]).
  { exists [target]. split; [done|]. split; [|done]. simpl. split; [|done].
    unfold self'. rewrite add_attack_step_successors, decide_True by done.
    apply elem_of_app. right. by left. }
  destruct (find_cases self' source target)
    as [[? _]|(_ & r & g & out & Hw & ->)]; [congruence|].
  apply while_queue_result in Hw
    as [_ [(_ & _ & Hno)|(p & -> & _ & (rest & -> & _ & Hl) & _ & Hmin)]].
  { by apply Hno in Hwalk. }
  simpl. do 3 f_equal. apply Hmin in Hwalk. simpl in Hwalk.
  destruct rest as [|x [|y rest]]; simpl in *; [congruence| |lia].
  by injection Hl as ->.
Qed.

Lemma search_after_add_attack_step_witness :
  returned (find_shortest_attack_path_bfs
              (add_attack_step attack_net "Printer" "Internet" "x").1
              "Printer" "Internet")
  = Some (Returned (Some ["Printer"; "Internet"])).
Proof.
  apply (search_after_add_attack_step attack_net "Printer" "Internet" "x"). done.
Defined.

(** X4: from a start node that passes the first test, the search returns
    a path exactly when some walk of stored steps leads from the start
    node to the target node. *)
Theorem path_returned_iff_reachable self s t :
  start_missing self s = false →
  (∃ p, returned (find_shortest_attack_path_bfs self s t) = Some (Returned (Some p)))
  ↔ ∃ q, attack_path (graph self) s t q.
Proof.
  intros Hknown.
  destruct (find_cases self s t) as [[? _]|(_ & r & g & out & Hw & ->)]; [congruence|].
  simpl. apply while_queue_result in Hw as [_ [(-> & _ & Hno)|(p & -> & _ & Hp & _)]].
  - split; [by intros [p ?]|]. intros [q Hq]. by apply Hno in Hq.
  - split; eauto.
Qed.

Lemma path_returned_iff_reachable_witness :
  (∃ p, returned (find_shortest_attack_path_bfs attack_net "Internet" "Printer")
        = Some (Returned (Some p)))
  ↔ ∃ q, attack_path (graph attack_net) "Internet" "Printer" q.
Proof.
  apply (path_returned_iff_reachable attack_net "Internet" "Printer").
  vm_compute; reflexivity.
Defined.

(** X5: a key that a search adds to [self.graph] is a node without stored
    steps that a walk reaches from the start node, and it is not the
    target node. *)
Theorem search_stores_only_reached_sinks self s t r self' out k :
  find_shortest_attack_path_bfs self s t = Some (r, self', out) →
  PyDict.get (graph self) k = None →
  is_Some (PyDict.get (graph self') k) →
  steps_of (graph self) k = [] ∧ k ≠ t ∧ ∃ q, attack_path (graph self) s k q.
Proof.
  intros Hfind Hnone Hk. split; [unfold steps_of; by rewrite Hnone|].
  destruct (find_cases self s t) as [[_ H]|(_ & r' & g & out' & Hw & H)];
    rewrite H in Hfind; injection Hfind as <- <- <-.
  - rewrite Hnone in Hk. by destruct Hk.
  - simpl in Hk. destruct (while_queue_added _ _ _ _ _ _ _ Hw k Hk)
      as [Hold|(Hkt & q & Hq & Hl)].
    + rewrite Hnone in Hold. by destruct Hold.
    + split; [done|]. exists q. by apply attack_path_reach.
Qed.

Lemma search_stores_only_reached_sinks_witness :
  steps_of (graph one_step) "B" = [] ∧ "B" ≠ "Z"
  ∧ ∃ q, attack_path (graph one_step) "A" "B" q.
Proof.
  apply (search_stores_only_reached_sinks one_step "A" "Z" (Returned None)
           {| graph := [("A", [("B", "x")]); ("B", [])];
              visual_graph := visual_graph one_step |}
           [SearchStarted "A" "Z"; NoPathFound] "B").
  - vm_compute; reflexivity.
  - vm_compute; reflexivity.
  - vm_compute. eauto.
Defined.

(** X6: on a graph produced by the methods, inserting one more step never
    makes a search fail that returned a path, and never makes the path it
    returns longer. *)
Theorem add_attack_step_never_lengthens self s t p source target exploit_name :
  built self →
  returned (find_shortest_attack_path_bfs self s t) = Some (Returned (Some p)) →
  ∃ p', returned (find_shortest_attack_path_bfs
                    (add_attack_step self source target exploit_name).1 s t)
        = Some (Returned (Some p'))
        ∧ (hops p' <= hops p)%nat.
Proof.
  intros Hb Hret. set (self2 := (add_attack_step self source target exploit_name).1).
  destruct (find_cases self s t) as [[_ H]|(Hknown & r & g & out & Hw & H)];
    rewrite H in Hret; [done|].
  simpl in Hret. injection Hret as ->.
  apply while_queue_result in Hw as [_ [(? & _)|(? & [= <-] & _ & Hp & _)]]; [done|].
  assert (Hknown2 : start_missing self2 s = false).
  { rewrite built_start_missing in Hknown |- * by (done || by constructor).
    apply negb_false_iff, bool_decide_eq_true in Hknown.
    apply negb_false_iff, bool_decide_eq_true, add_attack_step_keys. by left. }
  assert (Hp2 : attack_path (graph self2) s t p).
  { destruct Hp as (rest & -> & Hc & Hl). exists rest. split; [done|]. split; [|done].
    eapply chain_mono; [|exact Hc]. intros a b Hab. unfold self2.
    rewrite add_attack_step_successors. destruct (decide (a = source)) as [->|]; [|done].
    apply elem_of_app. by left. }
  destruct (find_cases self2 s t) as [[? _]|(_ & r2 & g2 & out2 & Hw2 & ->)]; [congruence|].
  apply while_queue_result in Hw2 as [_ [(_ & _ & Hno)|(p' & -> & _ & _ & _ & Hmin)]].
  - by apply Hno in Hp2.
  - exists p'. split; [done|]. apply Hmin in Hp2. unfold hops. lia.
Qed.

Lemma add_attack_step_never_lengthens_witness :
  ∃ p', returned (find_shortest_attack_path_bfs
                    (add_attack_step attack_net "Internet" "Database_SQL" "x").1
                    "Internet" "Database_SQL")
        = Some (Returned (Some p'))
        ∧ (hops p' <= hops ["Internet"; "WebServer"; "AppServer"; "Database_SQL"])%nat.
Proof.
  apply (add_attack_step_never_lengthens attack_net "Internet" "Database_SQL").
  - apply built_build, built_init.
  - vm_compute; reflexivity.
Defined.

(** X7: a path returned by a search on a graph produced by the methods
    is fit for [visualize_path]: it is not empty, so the method does not
    leave at its first test; [path[-1]], which the title shows, is the
    target node of the search; every node of the path, the [nodelist], is
    a node of [self.visual_graph]; every pair of [path_edges], the
    [edgelist], is one of its edges; and there are as many such pairs as
    the path has steps. *)
Theorem returned_path_fits_visual_graph self s t p self' out :
  built self →
  find_shortest_attack_path_bfs self s t = Some (Returned (Some p), self', out) →
  p ≠ []
  ∧ last p = Some t
  ∧ (∀ n, n ∈ p → n ∈ PyDict.keys (visual_graph self'))
  ∧ (∀ e, e ∈ path_edges p → e ∈ nx.edges (visual_graph self'))
  ∧ length (path_edges p) = hops p.
Proof.
  intros Hb Hfind.
  destruct (find_cases self s t) as [[_ H]|(Hknown & r & g & out' & Hw & H)];
    rewrite H in Hfind; [done|].
  injection Hfind as -> <- <-. cbn [graph visual_graph].
  apply while_queue_result in Hw
    as [_ [(? & _)|(? & [= <-] & _ & (rest & -> & Hc & Hl) & _)]]; [done|].
  destruct (built_mirrors self Hb) as [Hnd Hedges Hkeys Htargets].
  split; [done|]. split; [done|]. split; [|split].
  - intros n [->|Hn]%elem_of_cons; apply get_is_Some_keys.
    + destruct (start_known_cases self s Hknown) as [?|[v Hv]]; [auto|].
      apply edges_edge_label in Hv; [|done]. by eapply edge_label_source.
    + destruct (chain_targets _ _ _ _ Hc Hn) as [u Hu]. eauto.
  - intros [a b] Hab. apply edges_edge_label; [done|]. apply Hedges.
    by eapply chain_edges.
  - unfold path_edges, hops. rewrite length_zip_with. cbn [tail length]. lia.
Qed.

Lemma returned_path_fits_visual_graph_witness :
  last ["Internet"; "WebServer"; "AppServer"; "Database_SQL"] = Some "Database_SQL"
  ∧ length (path_edges ["Internet"; "WebServer"; "AppServer"; "Database_SQL"])
    = hops ["Internet"; "WebServer"; "AppServer"; "Database_SQL"].
Proof.
  destruct (returned_path_fits_visual_graph attack_net "Internet" "Database_SQL"
              ["Internet"; "WebServer"; "AppServer"; "Database_SQL"] attack_net
              [SearchStarted "Internet" "Database_SQL"; PathFound 3])
    as (_ & Hl & _ & _ & Hlen).
  - apply built_build, built_init.
  - vm_compute; reflexivity.
  - split; [exact Hl|exact Hlen].
Defined.

(** X8: after a sequence of [add_attack_step] calls, the label that
    [self.visual_graph] keeps for the edge from [u] to [v] is the exploit
    name of the last call with that source and target; parallel steps
    share one edge. Without such a call the label is what it was. *)
Theorem visual_graph_keeps_last_label calls self u v :
  edge_label (visual_graph (build calls self)) u v
  = match last (labels_of u v calls) with
    | Some exploit_name => Some exploit_name
    | None => edge_label (visual_graph self) u v
    end.
Proof.
  revert self. induction calls as [|[[a b] e] calls IH]; intros self; [done|].
  change (build ((a, b, e) :: calls) self)
    with (build calls (add_attack_step self a b e).1).
  rewrite IH, add_attack_step_visual, edge_label_add_edge. simpl.
  destruct (decide (a = u ∧ b = v)) as [[-> ->]|Hn].
  - rewrite last_cons, decide_True by done. by destruct (last (labels_of u v calls)).
  - rewrite decide_False by (intros [-> ->]; tauto). done.
Qed.

(** X9: the exploit names play no part in the search: on two graphs with
    the same successors of every node, and a start node that passes the
    first test on both, the search returns the same value and prints the
    same lines. *)
Theorem search_ignores_exploit_names self1 self2 s t :
  (∀ n, successors (graph self1) n = successors (graph self2) n) →
  start_missing self1 s = false →
  start_missing self2 s = false →
  returned (find_shortest_attack_path_bfs self1 s t)
  = returned (find_shortest_attack_path_bfs self2 s t)
  ∧ printed (find_shortest_attack_path_bfs self1 s t)
    = printed (find_shortest_attack_path_bfs self2 s t).
Proof.
  intros Hsucc Hk1 Hk2.
  destruct (find_cases self1 s t) as [[? _]|(_ & r1 & g1 & out1 & Hw1 & ->)]; [congruence|].
  destruct (find_cases self2 s t) as [[? _]|(_ & r2 & g2 & out2 & Hw2 & ->)]; [congruence|].
  destruct (while_queue_same_successors _ _ _ _ _ _ _ _ _ Hsucc Hw1) as [g2' Hw1'].
  set (b := budget_for (graph self1) `max` budget_for (graph self2)).
  apply (while_queue_mono _ b) in Hw1'; [|lia].
  apply (while_queue_mono _ b) in Hw2; [|lia].
  rewrite Hw1' in Hw2. by injection Hw2 as <- <- <-.
Qed.

Lemma search_ignores_exploit_names_witness :
  returned (find_shortest_attack_path_bfs one_step "A" "B")
  = returned (find_shortest_attack_path_bfs (build [("A", "B", "y")] init) "A" "B")
  ∧ printed (find_shortest_attack_path_bfs one_step "A" "B")
    = printed (find_shortest_attack_path_bfs (build [("A", "B", "y")] init) "A" "B").
Proof.
  apply (search_ignores_exploit_names one_step (build [("A", "B", "y")] init) "A" "B").
  - intros n. unfold successors, steps_of. simpl. by destruct (decide ("A" = n)).
  - vm_compute; reflexivity.
  - vm_compute; reflexivity.
Defined.

(** X10: a returned path has at most as many steps as there are different
    nodes that stored steps lead to. *)
Theorem returned_path_hops_bound self s t p self' out :
  find_shortest_attack_path_bfs self s t = Some (Returned (Some p), self', out) →
  (hops p <= size (targets (graph self)))%nat.
Proof.
  intros Hfind.
  destruct (find_cases self s t) as [[_ H]|(_ & r & g & out' & Hw & H)];
    rewrite H in Hfind; [done|].
  injection Hfind as -> _ _.
  apply while_queue_result in Hw
    as [_ [(? & _)|(? & [= <-] & _ & (rest & -> & Hc & _) & Hnd & _)]]; [done|].
  apply NoDup_cons in Hnd as [_ Hnd]. unfold hops. simpl. rewrite Nat.sub_0_r.
  rewrite <- (size_list_to_set (C:=gset string) rest) by done.
  apply subseteq_size. intros n Hn%elem_of_list_to_set.
  destruct (chain_targets _ _ _ _ Hc Hn) as [u Hu]. by eapply successors_targets.
Qed.

Lemma returned_path_hops_bound_witness :
  (hops ["Internet"; "WebServer"; "AppServer"; "Database_SQL"]
   <= size (targets (graph attack_net)))%nat.
Proof.
  apply (returned_path_hops_bound attack_net "Internet" "Database_SQL"
           ["Internet"; "WebServer"; "AppServer"; "Database_SQL"] attack_net
           [SearchStarted "Internet" "Database_SQL"; PathFound 3]).
  vm_compute; reflexivity.
Defined.

(** X11: after a sequence of [add_attack_step] calls the steps stored
    under a node are the ones stored before, followed by the steps of
    the calls with that source, in the order of the calls. *)
Theorem build_steps_in_call_order calls self n :
  steps_of (graph (build calls self)) n
  = (steps_of (graph self) n ++ steps_from n calls)%list.
Proof.
  revert self. induction calls as [|[[a b] e] calls IH]; intros self.
  - simpl. by rewrite app_nil_r.
  - change (build ((a, b, e) :: calls) self)
      with (build calls (add_attack_step self a b e).1).
    rewrite IH, add_attack_step_steps_of. simpl.
    destruct (decide (a = n)); [by rewrite <- app_assoc|done].
Qed.

Local Close Scope string_scope.

(** ** Ties between shortest paths *)

Lemma fresh_elem_of l visited x : x ∈ fresh l visited → x ∈ l ∧ x ∉ visited.
Proof.
  revert visited. induction l as [|n l IH]; intros visited; simpl.
  - by intros ?%elem_of_nil.
  - destruct (decide (n ∈ visited)) as [Hin|Hnin].
    + intros [? ?]%IH. split; [by right|done].
    + intros [->|[? ?]%IH]%elem_of_cons; [split; [by left|done]|].
      split; [by right|set_solver].
Qed.

(** The loop appends the neighbours by the position of their first step. *)
Lemma fresh_sorted l visited i j a b :
  fresh l visited !! i = Some a → fresh l visited !! j = Some b → i < j →
  rank l a < rank l b.
Proof.
  revert visited i j. induction l as [|n l IH]; intros visited i j; simpl; [done|].
  destruct (decide (n ∈ visited)) as [Hin|Hnin].
  - intros Ha Hb Hij.
    destruct (fresh_elem_of l visited a) as [_ Hav]; [by eapply list_elem_of_lookup_2|].
    destruct (fresh_elem_of l visited b) as [_ Hbv]; [by eapply list_elem_of_lookup_2|].
    rewrite !decide_False by congruence.
    apply ->Nat.succ_lt_mono. by eapply IH.
  - destruct i as [|i], j as [|j]; simpl; try lia.
    + intros [= <-] Hb _.
      destruct (fresh_elem_of l ({[n]} ∪ visited) b) as [_ Hbv];
        [by eapply list_elem_of_lookup_2|].
      rewrite decide_True by done. rewrite decide_False by set_solver. lia.
    + intros Ha Hb Hij.
      destruct (fresh_elem_of l ({[n]} ∪ visited) a) as [_ Hav];
        [by eapply list_elem_of_lookup_2|].
      destruct (fresh_elem_of l ({[n]} ∪ visited) b) as [_ Hbv];
        [by eapply list_elem_of_lookup_2|].
      rewrite !decide_False by set_solver.
      apply ->Nat.succ_lt_mono. eapply IH; [done..|lia].
Qed.

Lemma for_neighbors_fresh path steps visited queue :
  for_neighbors path steps visited queue
  = (list_to_set (fresh steps.*1 visited) ∪ visited,
     queue ++ map (fun w => path ++ [w]) (fresh steps.*1 visited)).
Proof.
  unfold for_neighbors. revert visited queue.
  induction steps as [|[n e] steps IH]; intros visited queue; simpl.
  - f_equal; [set_solver|by rewrite app_nil_r].
  - destruct (decide (n ∈ visited)) as [Hin|Hnin]; rewrite IH; [done|].
    simpl. f_equal; [set_solver|by rewrite <- app_assoc].
Qed.

Lemma iteration_continues_fresh t g queue visited g' queue' visited' :
  iteration t g queue visited = inr (g', queue', visited') →
  ∃ path rest u,
    queue = path :: rest ∧ last path = Some u
    ∧ queue' = rest ++ map (fun w => path ++ [w]) (fresh (successors g u) visited).
Proof.
  unfold iteration. destruct queue as [|path rest]; [done|].
  destruct (last path) as [u|] eqn:Hl; [|done].
  destruct (decide (u = t)) as [|Hne]; [done|].
  pose proof (getitem_steps g u) as Hs.
  destruct (DefaultDict.getitem g u) as [steps g1]. simpl in Hs. subst steps.
  rewrite for_neighbors_fresh. intros [= <- <- <-]. by exists path, rest, u.
Qed.

Lemma earlier_length g p q : earlier g p q → length p = length q.
Proof. induction 1; simpl; congruence. Qed.

Lemma earlier_snoc g p q x y : earlier g p q → earlier g (p ++ [x]) (q ++ [y]).
Proof.
  induction 1 as [u a b r1 r2 Hr Hlen|u p q _ IH]; simpl.
  - apply earlier_here; [done|]. rewrite !length_app. simpl. lia.
  - by apply earlier_next.
Qed.

Lemma earlier_extend g p w a b :
  last p = Some w → rank (successors g w) a < rank (successors g w) b →
  earlier g (p ++ [a]) (p ++ [b]).
Proof.
  intros Hl Hr. induction p as [|u p IH]; [done|].
  destruct p as [|u' p].
  - injection Hl as ->. by apply earlier_here.
  - simpl. apply earlier_next. apply IH. by rewrite last_cons_cons in Hl.
Qed.

Lemma earlier_trans g p q r : earlier g p q → earlier g q r → earlier g p r.
Proof.
  intros Hpq. revert r. induction Hpq as [u a b r1 r2 Hr Hlen|u p q Hpq IH]; intros r Hqr.
  - inversion Hqr as [u' a' b' r1' r2' Hr' Hlen'|u' p' q' Hqr']; subst.
    + apply earlier_here; [lia|congruence].
    + destruct q' as [|c q']; [by inversion Hqr'|].
      assert (c = b) as ->.
      { inversion Hqr'; by subst. }
      apply earlier_here; [done|]. apply earlier_length in Hqr'. simpl in Hqr'. lia.
  - inversion Hqr as [u' a' b' r1' r2' Hr' Hlen'|u' p' q' Hqr']; subst.
    + destruct p as [|c p]; [by inversion Hpq|].
      assert (c = a') as ->.
      { inversion Hpq; by subst. }
      apply earlier_here; [done|]. apply earlier_length in Hpq. simpl in Hpq. lia.
    + apply earlier_next. by apply IH.
Qed.

Lemma in_queue_dec v queue : in_queue v queue ∨ ¬ in_queue v queue.
Proof.
  induction queue as [|p queue IH].
  - right. apply in_queue_nil.
  - rewrite in_queue_cons. destruct (decide (last p = Some v)); tauto.
Qed.

(** The path at the head of the queue is on the shorter level. *)
Lemma bfs_inv_head_level g0 s t g path rest visited :
  bfs_inv g0 s t g (path :: rest) visited →
  ∃ d front back,
    levels g0 s d (path :: front) back visited ∧ rest = front ++ back.
Proof.
  intros [_ _ _ (d & front & back & Hq & Hl) Hdone _].
  destruct front as [|p front]; simpl in Hq.
  - subst back. exists (S d), rest, []. split; [|by rewrite app_nil_r].
    apply levels_shift; [|done]. intros x w Hx Hnq. by apply Hdone.
  - injection Hq as -> ->. eauto.
Qed.

Lemma tie_inv_start g0 s : tie_inv g0 s [[s]].
Proof.
  split.
  - intros p q ->%list_elem_of_singleton Hq _ Hlen. left. by apply (reach_single g0).
  - intros i j p q Hi Hj Hij _. apply lookup_lt_Some in Hj. simpl in Hj. lia.
  - intros p f ->%list_elem_of_singleton ->%list_elem_of_singleton. simpl. lia.
Qed.

Lemma tie_inv_iteration g0 s t g q v g' q' v' :
  bfs_inv g0 s t g q v → tie_inv g0 s q →
  iteration t g q v = inr (g', q', v') → tie_inv g0 s q'.
Proof.
  intros Hinv [Hmin Hord Hpar] (path & rest & u & -> & Hu & ->)%iteration_continues_fresh.
  destruct (bfs_inv_head_level _ _ _ _ _ _ _ Hinv)
    as (d & front & back & [Hfront Hback _ Hat] & ->).
  destruct Hinv as [Hg _ Hpaths _ Hdone _].
  assert (successors g u = successors g0 u) as -> by (unfold successors; by rewrite Hg).
  set (new := fresh (successors g0 u) v).
  assert (Hnew : ∀ a, a ∈ new → a ∈ successors g0 u ∧ a ∉ v).
  { intros a. apply fresh_elem_of. }
  assert (Hhead : ∀ f, f ∈ front ++ back → length f = length path → earlier g0 path f).
  { intros f [k Hk]%list_elem_of_lookup Hlen.
    apply (Hord 0 (S k) path f); [done|done|lia|done]. }
  assert (Hlens : ∀ f, f ∈ front ++ back → length f = S d ∨ length f = S (S d)).
  { intros f [?|?]%elem_of_app; [left; apply Hfront; by right|right; by apply Hback]. }
  assert (Hpath : length path = S d) by (apply Hfront; by left).
  split.
  - intros p q [Hp|(a & -> & Ha)%list_elem_of_fmap]%elem_of_app Hq Hl Hlen.
    { apply Hmin; [by right|done..]. }
    apply Hnew in Ha as [Hsucc Hfresh].
    rewrite last_snoc in Hl. rewrite length_app in Hlen. simpl in Hlen.
    destruct Hq as [|q'' w a' Hq'' Hw Ha'].
    { simpl in Hlen. lia. }
    rewrite last_snoc in Hl. injection Hl as ->.
    rewrite length_app in Hlen. simpl in Hlen.
    destruct (Hat q'' w Hq'' Hw) as [Hwv Hwback]; [lia|].
    destruct (in_queue_dec w (path :: front ++ back)) as [(pw & Hin & Hlw)|Hnq].
    + assert (q'' = pw ∨ earlier g0 pw q'') as Hpw.
      { apply Hmin; [done|done|congruence|].
        apply elem_of_cons in Hin as [->|Hin]; [lia|].
        apply elem_of_app in Hin as [Hin|Hin]; [rewrite (Hfront pw); [lia|by right]|].
        destruct Hwback. by exists pw. }
      apply elem_of_cons in Hin as [->|Hin].
      * destruct Hpw as [->|He]; [by left|]. right. by apply earlier_snoc.
      * right. apply earlier_snoc.
        assert (earlier g0 path pw) as He.
        { apply Hhead; [done|]. apply elem_of_app in Hin as [Hin|Hin].
          - rewrite (Hfront pw); [lia|by right].
          - destruct Hwback. by exists pw. }
        destruct Hpw as [->|He']; [done|]. by eapply earlier_trans.
    + destruct Hfresh. by apply (Hdone w a).
  - intros i j p q Hi Hj Hij Hlen.
    apply lookup_app_Some in Hi as [Hi|[Hi1 Hi2]];
      apply lookup_app_Some in Hj as [Hj|[Hj1 Hj2]].
    + apply (Hord (S i) (S j) p q); [done|done|lia|done].
    + apply list_lookup_fmap_Some in Hj2 as (b & -> & Hb).
      rewrite length_app in Hlen. simpl in Hlen.
      destruct (Hpar p path) as (pp & x & -> & He);
        [right; by eapply list_elem_of_lookup_2|by left|lia|].
      by apply earlier_snoc.
    + apply lookup_lt_Some in Hj. lia.
    + apply list_lookup_fmap_Some in Hi2 as (a & -> & Ha).
      apply list_lookup_fmap_Some in Hj2 as (b & -> & Hb).
      apply (earlier_extend g0 path u); [done|].
      eapply fresh_sorted; [exact Ha|exact Hb|lia].
  - intros p f [Hp|(a & -> & Ha)%list_elem_of_fmap]%elem_of_app
               [Hf|(b & -> & Hb)%list_elem_of_fmap]%elem_of_app Hlen.
    + apply Hpar; [by right|by right|done].
    + rewrite length_app in Hlen. simpl in Hlen. destruct (Hlens p Hp); lia.
    + rewrite length_app in Hlen. simpl in Hlen. exists path, a. split; [done|].
      apply Hhead; [done|lia].
    + rewrite !length_app in Hlen. simpl in Hlen. lia.
Qed.

(** Where the loop returns a path, the path is the earliest of the walks
    of its length from the start node to the target node. *)
Lemma while_queue_earliest budget t g0 s p g out q :
  while_queue budget t g0 [[s]] {[s]} = Some (Returned (Some p), g, out) →
  reach g0 s q → last q = Some t → length q = length p →
  q = p ∨ earlier g0 p q.
Proof.
  intros Hw Hq Hl Hlen.
  set (I := fun (g : PyDict.t (list step)) (qu : list (list string)) (v : gset string) =>
              bfs_inv g0 s t g qu v ∧ tie_inv g0 s qu).
  assert (Hstep : ∀ g1 q1 v1 g' q' v',
             I g1 q1 v1 → iteration t g1 q1 v1 = inr (g', q', v') → I g' q' v').
  { intros g1 q1 v1 g' q' v' [Hinv Htie] Hit.
    split; [by eapply bfs_inv_iteration|by eapply tie_inv_iteration]. }
  assert (Hinit : I g0 [[s]] {[s]}).
  { split; [apply bfs_inv_start|apply tie_inv_start]. }
  destruct (while_queue_invariant I t Hstep budget g0 [[s]] {[s]} _ Hinit Hw)
    as (g1 & q1 & v1 & [_ [Hmin _ _]] & Hit).
  apply iteration_leaves in Hit
    as [_ [(_ & ? & _)|[(? & _ & ? & _)|(path & rest & -> & Hlt & [= <-] & _)]]];
    [done|done|].
  apply Hmin; [by left|done|congruence|done].
Qed.

Local Open Scope string_scope.

(** X12: among the walks with the fewest steps from the start node to the
    target node the search returns the earliest: any other such walk
    leaves the returned path at some node [u] for a neighbour whose first
    step is stored under [u] after the first step to the neighbour the
    returned path goes to. Ties are broken by the order of insertion. *)
Theorem search_breaks_ties_by_insertion_order self s t p self' out q :
  find_shortest_attack_path_bfs self s t = Some (Returned (Some p), self', out) →
  attack_path (graph self) s t q →
  hops q = hops p →
  q = p ∨ earlier (graph self) p q.
Proof.
  intros Hfind Hq Hhops.
  destruct (find_cases self s t) as [[_ H]|(_ & r & g & out' & Hw & H)];
    rewrite H in Hfind; [done|].
  injection Hfind as -> _ _.
  apply while_queue_result in Hw as Hp.
  destruct Hp as [_ [(? & _)|(? & [= <-] & _ & (rest & -> & _) & _)]]; [done|].
  apply attack_path_reach in Hq as [Hq Hl].
  eapply while_queue_earliest; [exact Hw|done|done|].
  apply reach_nonempty in Hq as Hne. destruct q; [done|].
  unfold hops in Hhops. simpl in *. lia.
Qed.

Lemma search_breaks_ties_by_insertion_order_witness :
  ["Internet"; "WebServer"; "FileServer"; "Database_SQL"]
  = ["Internet"; "WebServer"; "AppServer"; "Database_SQL"]
  ∨ earlier (graph attack_net)
      ["Internet"; "WebServer"; "AppServer"; "Database_SQL"]
      ["Internet"; "WebServer"; "FileServer"; "Database_SQL"].
Proof.
  apply (search_breaks_ties_by_insertion_order attack_net "Internet" "Database_SQL"
           ["Internet"; "WebServer"; "AppServer"; "Database_SQL"] attack_net
           [SearchStarted "Internet" "Database_SQL"; PathFound 3]).
  - vm_compute; reflexivity.
  - exists ["WebServer"; "FileServer"; "Database_SQL"].
    split; [done|]. split; [|done].
    vm_compute. repeat split; repeat constructor.
  - reflexivity.
Defined.

(** A walk is not earlier than itself: the earliest walk is the only one. *)
Lemma earlier_irrefl g p : ¬ earlier g p p.
Proof.
  intros H. remember p as q eqn:Hq in H at 2. revert Hq.
  induction H as [u a b r1 r2 Hr _|u p q _ IH]; intros Hq.
  - injection Hq as -> _. lia.
  - injection Hq as ->. by apply IH.
Qed.
